(** * Play_cpp: the classes of the teaching modules, embedded and verified

    The repository is a set of standalone C++ programs.  This development
    embeds the classes its specification is drawn from:

    - [DynamicArray]  (04_constructors_destructors/example.cpp), the RAII
      wrapper around [new int[n]] / [delete[]];
    - [ShoppingCart]  (03_classes_basics/solution.cpp), the chained
      accumulator of named prices;
    - [IDGenerator] and [GlobalCounter] (03_classes_basics), the static
      instance counters;
    - [BankAccount]   (03_classes_basics/example.cpp);
    - [Student]       (03_classes_basics/solution.cpp).

    Conventions.  A [double] is a binary64 float ([PrimFloat.float]); an
    [int] is an integer between [INT_MIN] and [INT_MAX], and incrementing
    [INT_MAX] is undefined; a [size_t] used as a length or an index is a
    natural number (no operation of these classes can wrap one around);
    [std::vector] and [std::string] are lists and strings of any length.
    Console output is not part of the model: it never changes an object.

    The first part holds the programs, class by class; the second part
    the properties proved of them. *)

From Stdlib Require Import ZArith Floats.
From stdpp Require Import base option list strings gmap.

(** * The programs *)

(** ** Outcomes of running C++ code *)

(** The error taxonomy of the specification.  [std::bad_alloc], thrown by
    [new], is [AllocationError]. *)
Inductive exception : Type :=
| AllocationError
| InvalidStateError
| IndexOutOfRangeError.

(** The ways in which the code can leave defined behaviour. *)
Inductive undefined_behaviour : Type :=
| UseAfterFree      (* access through a pointer to storage already deleted *)
| OutOfBounds       (* access past the end of an array *)
| DoubleFree        (* delete[] of storage already deleted *)
| WildPointer       (* a pointer that was never returned by new *)
| Indeterminate     (* read of an element never written *)
| SignedOverflow.   (* increment of INT_MAX *)

Inductive outcome (A : Type) : Type :=
| Ok (a : A)
| Throw (e : exception)
| Undefined (u : undefined_behaviour).
Arguments Ok {A} a.
Arguments Throw {A} e.
Arguments Undefined {A} u.

#[global] Instance exception_eq_dec : EqDecision exception.
Proof. solve_decision. Defined.

#[global] Instance undefined_behaviour_eq_dec : EqDecision undefined_behaviour.
Proof. solve_decision. Defined.

(** Code running against a state of type [S]: the free store, the store
    of objects, a static member. *)
Definition run (S A : Type) : Type := S -> outcome (A * S).

Definition ret {S A} (a : A) : run S A := fun s => Ok (a, s).

Definition bind {S A B} (m : run S A) (k : A -> run S B) : run S B :=
  fun s =>
    match m s with
    | Ok (a, s') => k a s'
    | Throw e => Throw e
    | Undefined u => Undefined u
    end.

#[global] Instance run_ret {S} : MRet (run S) := @ret S.
#[global] Instance run_bind {S} : MBind (run S) := fun A B k m => bind m k.

(** ** Binary64 arithmetic *)

(** What the classes below need of IEEE 754 double arithmetic, proved on
    the specification of the primitive floats ([SpecFloat]). *)
Module Binary64.


(** [0 < x] is true. *)
Definition is_positive (x : spec_float) : bool :=
  match x with
  | S754_infinity s | S754_finite s _ _ => negb s
  | _ => false
  end.

(** The sum of a sequence of amounts, taken in order:
    [a_0 + a_1 + ... + a_(n-1)], zero for no terms. *)
Fixpoint partial_sum (amounts : list float) (n : nat) : float :=
  match n with
  | 0 => 0%float
  | S k => (partial_sum amounts k + nth k amounts 0%float)%float
  end.

Definition sum_of_amounts (amounts : list float) : float :=
  partial_sum amounts (length amounts).

(** The conversion of an integer to [double]. *)
Definition double_of_Z (z : Z) : float :=
  SF2Prim (binary_normalize prec emax z 0 false).

(** [0 <= x] is true: a zero, a positive number or plus infinity, and
    not a NaN. *)
Definition at_least_zero (x : spec_float) : bool :=
  match x with
  | S754_zero _ => true
  | S754_infinity s | S754_finite s _ _ => negb s
  | S754_nan => false
  end.

End Binary64.

(** ** DynamicArray: 04_constructors_destructors/example.cpp *)
Module DynamicArray.

(** *** The free store *)

(** A block of [int]s obtained from [new int[n]].  An element is [None]
    until it is first written; the class only stores and copies the
    elements, so they are integers with no arithmetic on them. *)
Inductive block : Type :=
| Live (cells : list (option Z))
| Freed.

(** The free store: every block ever allocated, indexed by its address,
    and the number of elements the host can still supply. *)
Record heap : Type := Heap {
  blocks : list block;
  avail : nat
}.

(** Code running against the free store. *)
Abbreviation M := (run heap).

(** [new int[n]]: a fresh block of [n] indeterminate elements, or
    [std::bad_alloc]. *)
Definition new_int_array (n : nat) : M nat :=
  fun h =>
    if decide (n <= avail h)
    then Ok (length (blocks h),
             {| blocks := blocks h ++ [Live (replicate n None)];
                avail := avail h - n |})
    else Throw AllocationError.

(** [delete[] p]. *)
Definition delete_array (p : nat) : M unit :=
  fun h =>
    match blocks h !! p with
    | Some (Live cells) =>
        Ok (tt, {| blocks := <[p := Freed]> (blocks h);
                   avail := avail h + length cells |})
    | Some Freed => Undefined DoubleFree
    | None => Undefined WildPointer
    end.

(** An lvalue [p[i]]: the block and the offset in it. *)
Definition lvalue : Type := nat * nat.

(** Forming the lvalue [p[i]]. *)
Definition subscript (p i : nat) : M lvalue :=
  fun h =>
    match blocks h !! p with
    | Some (Live cells) =>
        if decide (i < length cells) then Ok ((p, i), h)
        else Undefined OutOfBounds
    | Some Freed => Undefined UseAfterFree
    | None => Undefined WildPointer
    end.

(** Reading through an lvalue. *)
Definition load (r : lvalue) : M Z :=
  fun h =>
    match blocks h !! r.1 with
    | Some (Live cells) =>
        match cells !! r.2 with
        | Some (Some v) => Ok (v, h)
        | Some None => Undefined Indeterminate
        | None => Undefined OutOfBounds
        end
    | Some Freed => Undefined UseAfterFree
    | None => Undefined WildPointer
    end.

(** Writing through an lvalue. *)
Definition store (r : lvalue) (v : Z) : M unit :=
  fun h =>
    match blocks h !! r.1 with
    | Some (Live cells) =>
        if decide (r.2 < length cells)
        then Ok (tt, {| blocks := <[r.1 := Live (<[r.2 := Some v]> cells)]> (blocks h);
                        avail := avail h |})
        else Undefined OutOfBounds
    | Some Freed => Undefined UseAfterFree
    | None => Undefined WildPointer
    end.

(** [for (size_t i = first; i < first + count; ++i) body(i)]. *)
Fixpoint for_range (first count : nat) (body : nat -> M unit) : M unit :=
  match count with
  | 0 => mret tt
  | S k => body first;; for_range (S first) k body
  end.

(** *** The class *)

Record DynamicArray : Type := {
  data : nat;   (* int* data *)
  size : nat    (* size_t size *)
}.

(** [DynamicArray(size_t n) : size(n), data(new int[n])], then the loop
    [data[i] = 0].  (The members are initialised in the order of their
    declaration, [data] first; both initialisers read [n] only.) *)
Definition constructor (n : nat) : M DynamicArray :=
  p ← new_int_array n;
  let this := {| data := p; size := n |} in
  for_range 0 (size this) (fun i => r ← subscript (data this) i; store r 0);;
  mret this.

(** [~DynamicArray() { delete[] data; }] *)
Definition destructor (this : DynamicArray) : M unit :=
  delete_array (data this).

(** [std::copy(first, first + n, dest)]. *)
Definition std_copy (first n dest : nat) : M unit :=
  for_range 0 n
    (fun i =>
       src ← subscript first i;
       v ← load src;
       dst ← subscript dest i;
       store dst v).

(** [DynamicArray(const DynamicArray& other)
       : size(other.size), data(new int[other.size])], then
    [std::copy(other.data, other.data + size, data)]. *)
Definition copy_constructor (other : DynamicArray) : M DynamicArray :=
  p ← new_int_array (size other);
  let this := {| data := p; size := size other |} in
  std_copy (data other) (size this) (data this);;
  mret this.

(** [int& operator[](size_t index) { return data[index]; }] *)
Definition operator_subscript (this : DynamicArray) (index : nat) : M lvalue :=
  subscript (data this) index.

Definition getSize (this : DynamicArray) : nat := size this.

(** The two uses of [operator[]]: reading [arr[index]] and assigning
    [arr[index] = value]. *)
Definition elementAt (this : DynamicArray) (index : nat) : M Z :=
  r ← operator_subscript this index; load r.

Definition setElementAt (this : DynamicArray) (index : nat) (value : Z) : M unit :=
  r ← operator_subscript this index; store r value.

(** The instance owns a live block whose [size] elements hold [vs]. *)
Definition holds (this : DynamicArray) (h : heap) (vs : list Z) : Prop :=
  blocks h !! data this = Some (Live (Some <$> vs)) /\ length vs = size this.

(** The instance is valid: it owns a live block of [size] elements, all
    written. *)
Definition valid (this : DynamicArray) (h : heap) : Prop :=
  exists vs : list Z, holds this h vs.

(** The elements of the instance, when its storage is live. *)
Definition contents (this : DynamicArray) (h : heap) : option (list (option Z)) :=
  match blocks h !! data this with
  | Some (Live cells) => Some cells
  | _ => None
  end.

(** A host with room for [n] elements and nothing allocated. *)
Definition empty_heap (n : nat) : heap := {| blocks := []; avail := n |}.

(** *** The runs of [main] and of the specification *)

(** Example 2 of [main]: the values printed on its last line, after both
    destructors have run at the end of the block (in reverse order of
    construction). *)
Definition main_example2 : M (Z * Z) :=
  arr ← constructor 5;
  setElementAt arr 0 10;;
  setElementAt arr 1 20;;
  _ ← elementAt arr 0;
  arr2 ← copy_constructor arr;
  setElementAt arr2 0 99;;
  x ← elementAt arr 0;
  y ← elementAt arr2 0;
  destructor arr2;;
  destructor arr;;
  mret (x, y).

(** The same run with the values of the specification: capacity 3,
    elements 10, 20, 30. *)
Definition duplicate_scenario : M (Z * Z) :=
  r ← constructor 3;
  setElementAt r 0 10;;
  setElementAt r 1 20;;
  setElementAt r 2 30;;
  d ← copy_constructor r;
  setElementAt d 0 99;;
  x ← elementAt r 0;
  y ← elementAt d 0;
  mret (x, y).

(** The instance and the free store right after [DynamicArray arr(3)] on a
    host with room for ten elements. *)
Definition arr3 : DynamicArray := {| data := 0; size := 3 |}.
Definition heap3 : heap :=
  {| blocks := [Live [Some 0%Z; Some 0%Z; Some 0%Z]]; avail := 7 |}.

(** The free store after [arr3] has been destroyed. *)
Definition heap3_released : heap := {| blocks := [Freed]; avail := 10 |}.

(** A sequence of assignments [arr[i] = v], one statement after the
    other, as in [main]. *)
Fixpoint write_all (this : DynamicArray) (ws : list (nat * Z)) : M unit :=
  match ws with
  | [] => mret tt
  | w :: rest => setElementAt this w.1 w.2;; write_all this rest
  end.

(** The elements after the assignments [ws], made in order. *)
Definition assigned (vs : list Z) (ws : list (nat * Z)) : list Z :=
  foldl (fun l w => <[w.1 := w.2]> l) vs ws.

End DynamicArray.

(** ** ShoppingCart: 03_classes_basics/solution.cpp *)
Module ShoppingCart.

(** [struct Item { std::string name; double price; }] *)
Record Item : Type := {
  name : string;
  price : float
}.

(** [class ShoppingCart { std::vector<Item> items; }] *)
Record ShoppingCart : Type := {
  items : list Item
}.

(** Methods take [this] and return references, so the carts live in a
    store of objects, by address. *)
Abbreviation M := (run (gmap nat ShoppingCart)).

(** [ShoppingCart cart;] at address [this]: the vector starts empty. *)
Definition constructor (this : nat) : M unit :=
  fun st => Ok (tt, <[this := {| items := [] |}]> st).

(** [items.push_back({name, price}); return *this;] *)
Definition addItem (this : nat) (name : string) (price : float) : M nat :=
  fun st =>
    match st !! this with
    | Some cart =>
        Ok (this, <[this := {| items := items cart ++ [{| name := name; price := price |}] |}]> st)
    | None => Undefined WildPointer
    end.

(** [std::remove_if(first, last, pred)]: the elements for which [pred]
    is false are moved to the front in their relative order; the result
    is the vector and the position of the new logical end.  What is left
    past that position is unspecified (here: what was there). *)
Definition remove_if {A} (pred : A -> bool) (v : list A) : list A * nat :=
  let kept := List.filter (fun x => negb (pred x)) v in
  (kept ++ drop (length kept) v, length kept).

(** [v.erase(first, last)]. *)
Definition erase {A} (v : list A) (first last : nat) : list A :=
  take first v ++ drop last v.

(** [items.erase(std::remove_if(items.begin(), items.end(),
       [&name](const Item& item) { return item.name == name; }),
     items.end()); return *this;] *)
Definition removeItem (this : nat) (name' : string) : M nat :=
  fun st =>
    match st !! this with
    | Some cart =>
        let '(v, new_end) :=
          remove_if (fun item => String.eqb (name item) name') (items cart) in
        Ok (this, <[this := {| items := erase v new_end (length v) |}]> st)
    | None => Undefined WildPointer
    end.

(** The loop of [getTotal]: [for (const auto& item : items)
    total += item.price;]. *)
Fixpoint getTotal_loop (total : float) (l : list Item) : float :=
  match l with
  | [] => total
  | item :: rest => getTotal_loop (total + price item)%float rest
  end.

(** [double getTotal() const] *)
Definition getTotal (this : nat) : M float :=
  fun st =>
    match st !! this with
    | Some cart => Ok (getTotal_loop 0%float (items cart), st)
    | None => Undefined WildPointer
    end.

(** [void printItems() const]: the entries it prints, in order, and the
    total on its last line (number formatting left out). *)
Definition printItems (this : nat) : M (list (string * float) * float) :=
  fun st =>
    match st !! this with
    | Some cart =>
        (total ← getTotal this;
         mret ((fun item => (name item, price item)) <$> items cart, total)) st
    | None => Undefined WildPointer
    end.

(** A call of one of the two mutating methods. *)
Inductive call : Type :=
| withEntry (label : string) (amount : float)
| withoutEntry (label : string).

Definition perform (this : nat) (c : call) : M nat :=
  match c with
  | withEntry label amount => addItem this label amount
  | withoutEntry label => removeItem this label
  end.

(** The calls made one after the other, as separate statements. *)
Fixpoint perform_all (this : nat) (calls : list call) : M unit :=
  match calls with
  | [] => mret tt
  | c :: rest => perform this c;; perform_all this rest
  end.

(** The entries the specification expects after a sequence of calls:
    each [withEntry] appends its pair, each [withoutEntry] drops the
    pairs with that label. *)
Fixpoint entries_after (calls : list call) (entries : list (string * float))
  : list (string * float) :=
  match calls with
  | [] => entries
  | withEntry label amount :: rest =>
      entries_after rest (entries ++ [(label, amount)])
  | withoutEntry label :: rest =>
      entries_after rest (filter (fun e => e.1 <> label) entries)
  end.

Definition entries_of (cart : ShoppingCart) : list (string * float) :=
  (fun item => (name item, price item)) <$> items cart.

(** Solution 4 of [main]: the cart is filled by a chain of [addItem],
    printed, "Banana" is removed, and it is printed again. *)
Definition main_solution4 (cart : nat)
  : M ((list (string * float) * float) * (list (string * float) * float)) :=
  constructor cart;;
  r1 ← addItem cart "Apple" 1.50%float;
  r2 ← addItem r1 "Banana" 0.75%float;
  _ ← addItem r2 "Orange" 1.25%float;
  before ← printItems cart;
  _ ← removeItem cart "Banana";
  after ← printItems cart;
  mret (before, after).

(** The cart of [main] once the three items are in it, at address 0. *)
Definition cart3 : ShoppingCart :=
  {| items := [ {| name := "Apple"; price := 1.50 |};
                {| name := "Banana"; price := 0.75 |};
                {| name := "Orange"; price := 1.25 |} ] |}.

End ShoppingCart.

(** ** The static instance counters of 03_classes_basics *)

(** A [static int] member shared by all instances of a class. *)
Module StaticInt.

Definition INT_MAX : Z := 2147483647.
Definition INT_MIN : Z := -2147483648.

(** Code running against the static member. *)
Abbreviation M := (run Z).

(** [x++] on the static member: the value before, the member one higher;
    undefined when the member is [INT_MAX]. *)
Definition post_increment : M Z :=
  fun s =>
    if decide (s < INT_MAX)%Z then Ok (s, (s + 1)%Z)
    else Undefined SignedOverflow.

(** Reading the static member. *)
Definition read : M Z := fun s => Ok (s, s).

(** [n] instances constructed one after the other. *)
Fixpoint construct_n {A} (constructor : M A) (n : nat) : M (list A) :=
  match n with
  | 0 => mret []
  | S k =>
      first ← constructor;
      rest ← construct_n constructor k;
      mret (first :: rest)
  end.

End StaticInt.

(** [class IDGenerator] of example.cpp. *)
Module IDGenerator.
Import StaticInt.

Record IDGenerator : Type := { myID : Z }.

(** [int IDGenerator::nextID = 1;] *)
Definition nextID_initial : Z := 1.

(** [IDGenerator() { myID = nextID++; }] *)
Definition constructor : M IDGenerator :=
  id ← post_increment; mret {| myID := id |}.

(** The class declares no copy constructor and deletes none, so it has
    the implicit one, as for [IDGenerator g2 = g1;]: [myID] is copied
    and [nextID] is not touched. *)
Definition copy_constructor (other : IDGenerator) : M IDGenerator :=
  mret {| myID := myID other |}.

Definition getID (this : IDGenerator) : Z := myID this.

(** [static int getNextID() { return nextID; }] *)
Definition getNextID : M Z := read.

End IDGenerator.

(** [class GlobalCounter] of solution.cpp. *)
Module GlobalCounter.
Import StaticInt.

Record GlobalCounter : Type := { myCount : Z }.

(** [int GlobalCounter::totalCount = 0;] *)
Definition totalCount_initial : Z := 0.

(** [GlobalCounter() { myCount = totalCount++; }] *)
Definition constructor : M GlobalCounter :=
  count ← post_increment; mret {| myCount := count |}.

(** The implicit copy constructor, as for [GlobalCounter c4 = c1;]:
    [myCount] is copied and [totalCount] is not touched. *)
Definition copy_constructor (other : GlobalCounter) : M GlobalCounter :=
  mret {| myCount := myCount other |}.

Definition getMyCount (this : GlobalCounter) : Z := myCount this.

(** [static int getTotalCount() { return totalCount; }] *)
Definition getTotalCount : M Z := read.

End GlobalCounter.

(** ** BankAccount: 03_classes_basics/example.cpp *)
Module BankAccount.

Record BankAccount : Type := {
  owner : string;
  balance : float
}.

(** [BankAccount(std::string name, double initial)
      : owner(name), balance(initial) {}] *)
Definition constructor (name : string) (initial : float) : BankAccount :=
  {| owner := name; balance := initial |}.

(** [bool withdraw(double amount)]: the result and the account after. *)
Definition withdraw (amount : float) (this : BankAccount) : bool * BankAccount :=
  if (0 <? amount)%float && (amount <=? balance this)%float
  then (true, {| owner := owner this; balance := (balance this - amount)%float |})
  else (false, this).

(** [void deposit(double amount)] *)
Definition deposit (amount : float) (this : BankAccount) : BankAccount :=
  if (0 <? amount)%float
  then {| owner := owner this; balance := (balance this + amount)%float |}
  else this.

Definition getBalance (this : BankAccount) : float := balance this.

Definition getOwner (this : BankAccount) : string := owner this.

(** A call of one of the two mutating methods. *)
Inductive transaction : Type :=
| Withdraw (amount : float)
| Deposit (amount : float).

Definition apply_transaction (this : BankAccount) (t : transaction) : BankAccount :=
  match t with
  | Withdraw amount => (withdraw amount this).2
  | Deposit amount => deposit amount this
  end.

(** The calls made one after the other. *)
Definition apply_all (ts : list transaction) (this : BankAccount) : BankAccount :=
  foldl apply_transaction this ts.

(** Example 4 of [main]. *)
Definition main_example4 : float * float * bool * float * bool :=
  let account := constructor "Alice" 1000.0%float in
  let initial := getBalance account in
  let account := deposit 500.0%float account in
  let after_deposit := getBalance account in
  let '(withdrew, account) := withdraw 200.0%float account in
  let final := getBalance account in
  let '(withdrew_again, account) := withdraw 2000.0%float account in
  (initial, after_deposit, withdrew, final, withdrew_again).

End BankAccount.

(** ** Student: 03_classes_basics/solution.cpp *)
Module Student.

Record Student : Type := {
  name : string;
  grades : list Z
}.

(** [Student(const std::string& studentName) : name(studentName) {}] *)
Definition constructor (studentName : string) : Student :=
  {| name := studentName; grades := [] |}.

(** [void addGrade(int grade)]; the rejected grade is only reported on
    the console. *)
Definition addGrade (grade : Z) (this : Student) : Student :=
  if (0 <=? grade)%Z && (grade <=? 100)%Z
  then {| name := name this; grades := grades this ++ [grade] |}
  else this.

(** [std::accumulate(first, last, init)] with a [double] accumulator over
    [int]s: [init = init + *first] for each element in order. *)
Fixpoint accumulate (l : list Z) (init : float) : float :=
  match l with
  | [] => init
  | g :: rest => accumulate rest (init + Binary64.double_of_Z g)%float
  end.

(** [double getAverage() const] *)
Definition getAverage (this : Student) : float :=
  match grades this with
  | [] => 0.0%float
  | _ => (accumulate (grades this) 0.0 / Binary64.double_of_Z (Z.of_nat (length (grades this))))%float
  end.

Definition getName (this : Student) : string := name this.

Definition getGradeCount (this : Student) : nat := length (grades this).

(** The calls [addGrade(g)] made one after the other. *)
Definition addGrades (gs : list Z) (this : Student) : Student :=
  foldl (fun s g => addGrade g s) this gs.

(** The sum of a sequence of grades, as integers. *)
Definition total (gs : list Z) : Z := foldr Z.add 0%Z gs.

(** The arithmetic mean of a sequence of grades: the double nearest to
    the quotient of their sum by their number (both below 2^53, so that
    the division is the only rounding). *)
Definition arithmetic_mean (gs : list Z) : float :=
  (Binary64.double_of_Z (total gs) / Binary64.double_of_Z (Z.of_nat (length gs)))%float.

(** What [getAverage] computes whatever the grades: their doubles summed
    in order, divided by the double of their number. *)
Definition mean_in_order (gs : list Z) : float :=
  (Binary64.sum_of_amounts (Binary64.double_of_Z <$> gs)
   / Binary64.double_of_Z (Z.of_nat (length gs)))%float.

(** A grade that [addGrade] accepts. *)
Definition in_range (g : Z) : Prop := (0 <= g <= 100)%Z.

#[global] Instance in_range_dec g : Decision (in_range g).
Proof. unfold in_range. apply _. Defined.

(** Solution 2 of [main]: the average printed for Alice. *)
Definition main_solution2 : float :=
  let alice := constructor "Alice" in
  let alice := addGrade 85 alice in
  let alice := addGrade 90 alice in
  let alice := addGrade 78 alice in
  let alice := addGrade 150 alice in
  getAverage alice.

End Student.

(** ** Rectangle: 03_classes_basics/example.cpp *)
Module Rectangle.
Import StaticInt.

(** [class Rectangle { int width; int height; }]; both are indeterminate
    until [setDimensions]. *)
Record Rectangle : Type := {
  width : option Z;
  height : option Z
}.

(** [Rectangle rect;] *)
Definition default_constructor : Rectangle := {| width := None; height := None |}.

(** [void setDimensions(int w, int h) { width = w; height = h; }] *)
Definition setDimensions (w h : Z) (this : Rectangle) : Rectangle :=
  {| width := Some w; height := Some h |}.

(** The result of an [int] operation whose exact value is [z]. *)
Definition int_result (z : Z) : outcome Z :=
  if decide (INT_MIN <= z <= INT_MAX)%Z then Ok z else Undefined SignedOverflow.

(** [int area() const { return width * height; }] *)
Definition area (this : Rectangle) : outcome Z :=
  match width this, height this with
  | Some w, Some h => int_result (w * h)
  | _, _ => Undefined Indeterminate
  end.

(** [int perimeter() const { return 2 * (width + height); }] *)
Definition perimeter (this : Rectangle) : outcome Z :=
  match width this, height this with
  | Some w, Some h =>
      match int_result (w + h) with
      | Ok sum => int_result (2 * sum)
      | Throw e => Throw e
      | Undefined u => Undefined u
      end
  | _, _ => Undefined Indeterminate
  end.

End Rectangle.

(** ** Circle: 03_classes_basics/solution.cpp *)
Module Circle.

(** [const double PI = 3.14159265359;] *)
#[warnings="-inexact-float"] Definition PI : float := 3.14159265359%float.

(** [class Circle { double radius; }].  The class has no constructor:
    the radius of [Circle c;] is indeterminate until [setRadius]. *)
Record Circle : Type := {
  radius : option float
}.

(** [Circle c;] *)
Definition default_constructor : Circle := {| radius := None |}.

(** [void setRadius(double r) { radius = (r > 0) ? r : 0; }] *)
Definition setRadius (r : float) (this : Circle) : Circle :=
  {| radius := Some (if (0 <? r)%float then r else 0%float) |}.

(** [double getRadius() const] *)
Definition getRadius (this : Circle) : outcome float :=
  match radius this with
  | Some r => Ok r
  | None => Undefined Indeterminate
  end.

(** [double area() const { return PI * radius * radius; }] *)
Definition area (this : Circle) : outcome float :=
  match radius this with
  | Some r => Ok (PI * r * r)%float
  | None => Undefined Indeterminate
  end.

(** [double circumference() const { return 2 * PI * radius; }] *)
Definition circumference (this : Circle) : outcome float :=
  match radius this with
  | Some r => Ok (2 * PI * r)%float
  | None => Undefined Indeterminate
  end.

End Circle.

(** ** Point: 03_classes_basics/example.cpp *)
Module Point.
Import StaticInt.

(** [class Point { int x, y; }]; both are indeterminate until [set]. *)
Record Point : Type := {
  x : option Z;
  y : option Z
}.

(** [move] returns [*this], so the points live in a store of objects. *)
Abbreviation M := (run (gmap nat Point)).

(** [Point p;] at address [this]. *)
Definition default_constructor (this : nat) : M unit :=
  fun st => Ok (tt, <[this := {| x := None; y := None |}]> st).

(** [void set(int x, int y) { this->x = x; this->y = y; }] *)
Definition set (this : nat) (x' y' : Z) : M unit :=
  fun st =>
    match st !! this with
    | Some _ => Ok (tt, <[this := {| x := Some x'; y := Some y' |}]> st)
    | None => Undefined WildPointer
    end.

(** [v += d] on an [int] member: the new value. *)
Definition add_assign (v : option Z) (d : Z) : outcome Z :=
  match v with
  | None => Undefined Indeterminate
  | Some a =>
      if decide (INT_MIN <= a + d <= INT_MAX)%Z then Ok (a + d)%Z
      else Undefined SignedOverflow
  end.

(** [Point& move(int dx, int dy) { x += dx; y += dy; return *this; }] *)
Definition move (this : nat) (dx dy : Z) : M nat :=
  fun st =>
    match st !! this with
    | Some p =>
        match add_assign (x p) dx with
        | Ok x' =>
            match add_assign (y p) dy with
            | Ok y' => Ok (this, <[this := {| x := Some x'; y := Some y' |}]> st)
            | Throw e => Throw e
            | Undefined u => Undefined u
            end
        | Throw e => Throw e
        | Undefined u => Undefined u
        end
    | None => Undefined WildPointer
    end.

(** [void print() const]: the two numbers printed. *)
Definition print (this : nat) : M (Z * Z) :=
  fun st =>
    match st !! this with
    | Some {| x := Some vx; y := Some vy |} => Ok ((vx, vy), st)
    | Some _ => Undefined Indeterminate
    | None => Undefined WildPointer
    end.

(** Example 3 of [main]: the two points printed. *)
Definition main_example3 (p : nat) : M ((Z * Z) * (Z * Z)) :=
  default_constructor p;;
  set p 0 0;;
  initial ← print p;
  r ← move p 3 4;
  _ ← move r 1 1;
  moved ← print p;
  mret (initial, moved).

End Point.

(** * Properties *)

Lemma bind_Ok {S A B} (m : run S A) (k : A -> run S B) s a s' :
  m s = Ok (a, s') -> (m ≫= k) s = k a s'.
Proof. intros E. unfold mbind, run_bind, bind. now rewrite E. Qed.

Lemma bind_Undefined {S A B} (m : run S A) (k : A -> run S B) s u :
  m s = Undefined u -> (m ≫= k) s = Undefined u.
Proof. intros E. unfold mbind, run_bind, bind. now rewrite E. Qed.

(** ** Binary64 arithmetic: signs and exact sums *)
Module Binary64Facts.
Import Binary64.

(** *** Signs of sums and differences *)

Ltac float_cases x := destruct x as [[]|[]| |[] ? ?].

Lemma Prim2SF_zero : Prim2SF 0%float = S754_zero false.
Proof. reflexivity. Qed.


Lemma SFltb_zero_l x : SFltb (S754_zero false) x = is_positive x.
Proof. now float_cases x. Qed.






Lemma digits2_pos_bounds m :
  (2 ^ (Z.pos (digits2_pos m) - 1) <= Z.pos m < 2 ^ Z.pos (digits2_pos m))%Z.
Proof.
  induction m as [m IH|m IH|]; cbn [digits2_pos].
  - rewrite Pos2Z.inj_succ. replace (Z.succ (Z.pos (digits2_pos m)) - 1)%Z
      with (Z.succ (Z.pos (digits2_pos m) - 1)) by lia.
    rewrite !Z.pow_succ_r by lia. lia.
  - rewrite Pos2Z.inj_succ. replace (Z.succ (Z.pos (digits2_pos m)) - 1)%Z
      with (Z.succ (Z.pos (digits2_pos m) - 1)) by lia.
    rewrite !Z.pow_succ_r by lia. lia.
  - simpl. lia.
Qed.

Lemma shl_align_value m e e' :
  (e' <= e)%Z -> Z.pos (shl_align m e e').1 = (Z.pos m * 2 ^ (e - e'))%Z.
Proof.
  intros He. unfold shl_align.
  destruct (e' - e)%Z as [|d|d] eqn:Hd; simpl.
  - replace (e - e')%Z with 0%Z by lia. lia.
  - lia.
  - change (Pos.iter xO m d) with (shift_pos d m).
    rewrite shift_pos_correct, Z.pow_pos_fold.
    replace (e - e')%Z with (Z.pos d) by lia. lia.
Qed.




(** *** Sums of small integers are exact *)

(** The number of binary digits is fixed by the powers of two around the
    number. *)
Lemma digits2_pos_unique m d :
  (2 ^ (d - 1) <= Z.pos m < 2 ^ d)%Z -> Z.pos (digits2_pos m) = d.
Proof.
  intros [Hlo Hhi]. pose proof (digits2_pos_bounds m) as [Hlo' Hhi'].
  assert (0 < d)%Z.
  { destruct (Z.lt_trichotomy d 0) as [Hd|[Hd|Hd]]; [| | exact Hd].
    - rewrite Z.pow_neg_r in Hhi by lia. lia.
    - subst d. simpl in Hhi. lia. }
  destruct (Z.lt_trichotomy (Z.pos (digits2_pos m)) d) as [Hd|[Hd|Hd]]; [| exact Hd |].
  - assert (2 ^ Z.pos (digits2_pos m) <= 2 ^ (d - 1))%Z by (apply Z.pow_le_mono_r; lia).
    lia.
  - assert (2 ^ d <= 2 ^ (Z.pos (digits2_pos m) - 1))%Z by (apply Z.pow_le_mono_r; lia).
    lia.
Qed.

Lemma iter_pos_nat {A} (f : A -> A) p : forall x,
  SpecFloat.iter_pos f p x = Nat.iter (Pos.to_nat p) f x.
Proof.
  induction p as [p IH|p IH|]; intros x; cbn [SpecFloat.iter_pos].
  - rewrite !IH, Pos2Nat.inj_xI.
    replace (S (2 * Pos.to_nat p)) with (Pos.to_nat p + (Pos.to_nat p + 1)) by lia.
    rewrite !Nat.iter_add. simpl. reflexivity.
  - rewrite !IH, Pos2Nat.inj_xO.
    replace (2 * Pos.to_nat p) with (Pos.to_nat p + Pos.to_nat p) by lia.
    now rewrite Nat.iter_add.
  - reflexivity.
Qed.

(** Shifting out [k] zero bits is exact. *)
Lemma shr_1_exact (n : nat) : forall m : positive,
  Nat.iter n shr_1 {| shr_m := Z.pos m * 2 ^ Z.of_nat n; shr_r := false; shr_s := false |}
  = {| shr_m := Z.pos m; shr_r := false; shr_s := false |}.
Proof.
  induction n as [|n IH]; intros m.
  - change (2 ^ Z.of_nat 0)%Z with 1%Z. now rewrite Z.mul_1_r.
  - rewrite Nat.iter_succ_r, Nat2Z.inj_succ, Z.pow_succ_r by lia.
    destruct (Z.pos m * 2 ^ Z.of_nat n)%Z as [|q|q] eqn:Hq; [lia | | lia].
    replace (Z.pos m * (2 * 2 ^ Z.of_nat n))%Z with (Z.pos (q~0)) by lia.
    cbn [shr_1 orb]. rewrite <- Hq. apply IH.
Qed.

Lemma fexp_normal (e : Z) :
  (-1074 <= e)%Z -> fexp prec emax (53 + e) = e.
Proof. unfold fexp, SpecFloat.emin, prec, emax. lia. Qed.

(** A mantissa of 53 bits at an exponent in range needs no rounding. *)
Lemma binary_round_aux_exact (m : positive) (e : Z) :
  Z.pos (digits2_pos m) = 53%Z -> (-1074 <= e <= 971)%Z ->
  binary_round_aux prec emax false (Z.pos m) e loc_Exact = S754_finite false m e.
Proof.
  intros Hd He.
  unfold binary_round_aux, shr_fexp. cbn [Zdigits2].
  rewrite Hd, fexp_normal, Z.sub_diag by lia.
  cbn [shr_record_of_loc shr shr_m loc_of_shr_record round_nearest_even Zdigits2].
  rewrite Hd, fexp_normal, Z.sub_diag by lia.
  cbn [shr_record_of_loc shr shr_m].
  now rewrite (proj2 (Z.leb_le e (emax - prec))) by (unfold prec, emax; lia).
Qed.

(** A mantissa of 53 bits followed by [k] zero bits rounds to the
    mantissa, at the exponent raised by [k]. *)
Lemma binary_round_exact (m : positive) (k : nat) (e : Z) (M : positive) :
  Z.pos (digits2_pos m) = 53%Z -> (-1074 <= e <= 971)%Z ->
  Z.pos M = (Z.pos m * 2 ^ Z.of_nat k)%Z ->
  binary_round prec emax false M (e - Z.of_nat k) = S754_finite false m e.
Proof.
  intros Hd He HM.
  assert (Z.pos (digits2_pos M) = 53 + Z.of_nat k)%Z as HdM.
  { apply digits2_pos_unique. pose proof (digits2_pos_bounds m) as [Hlo Hhi].
    rewrite Hd in Hlo, Hhi. rewrite HM.
    replace (53 + Z.of_nat k - 1)%Z with (53 - 1 + Z.of_nat k)%Z by lia.
    rewrite !Z.pow_add_r by lia.
    assert (0 < 2 ^ Z.of_nat k)%Z by (apply Z.pow_pos_nonneg; lia). nia. }
  unfold binary_round. rewrite HdM.
  replace (53 + Z.of_nat k + (e - Z.of_nat k))%Z with (53 + e)%Z by lia.
  rewrite fexp_normal by lia. unfold shl_align.
  destruct (e - (e - Z.of_nat k))%Z as [|d|d] eqn:Hk; [| | lia].
  - assert (k = 0) as -> by lia.
    change (2 ^ Z.of_nat 0)%Z with 1%Z in HM. rewrite Z.mul_1_r in HM.
    injection HM as ->. replace (e - Z.of_nat 0)%Z with e by lia.
    now apply binary_round_aux_exact.
  - unfold binary_round_aux, shr_fexp. cbn [Zdigits2]. rewrite HdM.
    replace (53 + Z.of_nat k + (e - Z.of_nat k))%Z with (53 + e)%Z by lia.
    rewrite fexp_normal, Hk by lia. cbn [shr_record_of_loc shr].
    rewrite iter_pos_nat.
    assert (Pos.to_nat d = k) as -> by lia.
    rewrite HM, shr_1_exact.
    cbn [shr_m loc_of_shr_record round_nearest_even Zdigits2].
    replace (e - Z.of_nat k + Z.pos d)%Z with e by lia.
    rewrite Hd, fexp_normal, Z.sub_diag by lia. cbn [shr_record_of_loc shr shr_m].
    now rewrite (proj2 (Z.leb_le e (emax - prec))) by (unfold prec, emax; lia).
Qed.

(** The double of a positive integer below 2^53: a mantissa of 53 bits
    at an exponent between -52 and 0, of the same value. *)
Lemma normalize_integer (c : Z) :
  (0 < c < 2 ^ 53)%Z ->
  exists m e,
    binary_normalize prec emax c 0 false = S754_finite false m e /\
    Z.pos (digits2_pos m) = 53%Z /\ (-52 <= e <= 0)%Z /\
    Z.pos m = (c * 2 ^ (- e))%Z.
Proof.
  intros [Hpos Hlt]. destruct c as [|c|c]; [lia | | lia].
  set (d := Z.pos (digits2_pos c)).
  pose proof (digits2_pos_bounds c) as [Hlo Hhi]. fold d in Hlo, Hhi.
  assert (1 <= d <= 53)%Z as Hd.
  { split; [unfold d; lia |].
    destruct (Z.le_gt_cases d 53) as [H|H]; [exact H |].
    assert (2 ^ 53 <= 2 ^ (d - 1))%Z by (apply Z.pow_le_mono_r; lia). lia. }
  cbn [binary_normalize]. unfold binary_round. fold d.
  rewrite Z.add_0_r.
  assert (fexp prec emax d = d - 53)%Z as ->
    by (unfold fexp, SpecFloat.emin, prec, emax; lia).
  pose proof (shl_align_value c 0 (d - 53)) as Hval.
  assert ((shl_align c 0 (d - 53)).2 = d - 53)%Z as He.
  { unfold shl_align. destruct (d - 53 - 0)%Z eqn:E; simpl; lia. }
  destruct (shl_align c 0 (d - 53)) as [mz ez]. simpl in Hval, He. subst ez.
  specialize (Hval ltac:(lia)).
  replace (0 - (d - 53))%Z with (53 - d)%Z in Hval by lia.
  assert (Z.pos (digits2_pos mz) = 53%Z) as Hdz.
  { apply digits2_pos_unique. rewrite Hval.
    replace (53 - 1)%Z with ((d - 1) + (53 - d))%Z at 1 by lia.
    replace 53%Z with (d + (53 - d))%Z at 4 by lia.
    rewrite !Z.pow_add_r by lia.
    assert (0 < 2 ^ (53 - d))%Z by (apply Z.pow_pos_nonneg; lia). nia. }
  exists mz, (d - 53)%Z. split; [apply binary_round_aux_exact; [exact Hdz | lia] |].
  split; [exact Hdz |]. split; [lia |].
  rewrite Hval. f_equal. f_equal. lia.
Qed.

Lemma normalize_integer_valid (c : Z) :
  (0 <= c < 2 ^ 53)%Z -> valid_binary (binary_normalize prec emax c 0 false) = true.
Proof.
  intros [Hc Hlt]. destruct (Z.eq_dec c 0%Z) as [->|Hne]; [reflexivity |].
  destruct (normalize_integer c) as (m & e & -> & Hd & He & _); [lia |].
  unfold SpecFloat.valid_binary, bounded, canonical_mantissa.
  rewrite Hd, fexp_normal, Z.eqb_refl by lia. simpl.
  apply Z.leb_le. unfold prec, emax. lia.
Qed.

(** Adding the doubles of two natural numbers whose sum is below 2^53
    gives the double of the sum: no rounding takes place. *)
Lemma SF64add_integers (a b : Z) :
  (0 <= a)%Z -> (0 <= b)%Z -> (a + b < 2 ^ 53)%Z ->
  SF64add (binary_normalize prec emax a 0 false) (binary_normalize prec emax b 0 false)
  = binary_normalize prec emax (a + b) 0 false.
Proof.
  intros Ha Hb Hsum.
  destruct (Z.eq_dec a 0%Z) as [->|Hane].
  { rewrite Z.add_0_l. destruct (Z.eq_dec b 0%Z) as [->|Hbne]; [reflexivity |].
    destruct (normalize_integer b) as (m & e & -> & _); [lia | reflexivity]. }
  destruct (Z.eq_dec b 0%Z) as [->|Hbne].
  { rewrite Z.add_0_r.
    destruct (normalize_integer a) as (m & e & -> & _); [lia | reflexivity]. }
  destruct (normalize_integer a) as (ma & ea & -> & Hda & Hea & Hma); [lia |].
  destruct (normalize_integer b) as (mb & eb & -> & Hdb & Heb & Hmb); [lia |].
  destruct (normalize_integer (a + b)) as (mc & ec & -> & Hdc & Hec & Hmc); [lia |].
  pose proof (digits2_pos_bounds ma) as [Hma_lo _]. rewrite Hda in Hma_lo.
  pose proof (digits2_pos_bounds mb) as [Hmb_lo _]. rewrite Hdb in Hmb_lo.
  pose proof (digits2_pos_bounds mc) as [_ Hmc_hi]. rewrite Hdc in Hmc_hi.
  (* the exponent of the sum is not below that of a term *)
  assert (forall x mx ex, (0 < x <= a + b)%Z -> (-52 <= ex <= 0)%Z ->
            Z.pos mx = (x * 2 ^ (- ex))%Z -> (2 ^ (53 - 1) <= Z.pos mx)%Z ->
            (ex <= ec)%Z) as Hexp.
  { intros x mx ex Hx Hex Hmx Hlo.
    destruct (Z.le_gt_cases ex ec) as [H|H]; [exact H | exfalso].
    assert (2 ^ (- ec) = 2 ^ (- ex) * 2 ^ (ex - ec))%Z as Hsplit
      by (rewrite <- Z.pow_add_r by lia; f_equal; lia).
    assert (2 ^ 1 <= 2 ^ (ex - ec))%Z by (apply Z.pow_le_mono_r; lia).
    assert (0 < 2 ^ (- ex))%Z by (apply Z.pow_pos_nonneg; lia).
    change (2 ^ 1)%Z with 2%Z in *.
    change (2 ^ (53 - 1))%Z with 4503599627370496%Z in *.
    change (2 ^ 53)%Z with 9007199254740992%Z in *.
    rewrite Hsplit in Hmc. nia. }
  assert (ea <= ec)%Z as Hac by (apply (Hexp a ma ea); [lia | lia | exact Hma | exact Hma_lo]).
  assert (eb <= ec)%Z as Hbc by (apply (Hexp b mb eb); [lia | lia | exact Hmb | exact Hmb_lo]).
  unfold SF64add, SFadd. cbn [cond_Zopp].
  set (ez := Z.min ea eb).
  rewrite !shl_align_value by (unfold ez; lia).
  assert (Z.pos ma * 2 ^ (ea - ez) + Z.pos mb * 2 ^ (eb - ez)
          = Z.pos mc * 2 ^ Z.of_nat (Z.to_nat (ec - ez)))%Z as Hsum'.
  { rewrite Z2Nat.id by (unfold ez; lia). rewrite Hma, Hmb, Hmc.
    rewrite <- !Z.mul_assoc, <- !Z.pow_add_r by (unfold ez; lia).
    replace (- ea + (ea - ez))%Z with (- ez)%Z by lia.
    replace (- eb + (eb - ez))%Z with (- ez)%Z by lia.
    replace (- ec + (ec - ez))%Z with (- ez)%Z by lia. lia. }
  destruct (Z.pos ma * 2 ^ (ea - ez) + Z.pos mb * 2 ^ (eb - ez))%Z as [|M|M] eqn:HM;
    [lia | | lia].
  cbn [binary_normalize].
  replace ez with (ec - Z.of_nat (Z.to_nat (ec - ez)))%Z at 1
    by (rewrite Z2Nat.id by (unfold ez; lia); lia).
  apply binary_round_exact; [exact Hdc | lia | exact Hsum'].
Qed.

Lemma double_of_Z_zero : double_of_Z 0 = 0%float.
Proof. reflexivity. Qed.

Lemma double_of_Z_add (a b : Z) :
  (0 <= a)%Z -> (0 <= b)%Z -> (a + b < 2 ^ 53)%Z ->
  (double_of_Z a + double_of_Z b)%float = double_of_Z (a + b).
Proof.
  intros Ha Hb Hsum. apply Prim2SF_inj. rewrite add_spec. unfold double_of_Z.
  rewrite !Prim2SF_SF2Prim by (apply normalize_integer_valid; lia).
  now apply SF64add_integers.
Qed.

(** The sum in order is the sum of the sequence without its last term,
    plus that term. *)
Lemma partial_sum_app (l l' : list float) n :
  n <= length l -> partial_sum (l ++ l') n = partial_sum l n.
Proof.
  induction n as [|n IH]; intros Hn; simpl; [reflexivity |].
  rewrite IH by lia. f_equal. apply app_nth1. lia.
Qed.

Lemma sum_of_amounts_snoc (l : list float) (x : float) :
  sum_of_amounts (l ++ [x]) = (sum_of_amounts l + x)%float.
Proof.
  unfold sum_of_amounts. rewrite length_app, Nat.add_1_r. simpl.
  rewrite partial_sum_app by lia. f_equal.
  rewrite app_nth2, Nat.sub_diag by lia. reflexivity.
Qed.

(** *** Differences with oneself and NaN *)

Lemma Prim2SF_infinity : Prim2SF infinity = S754_infinity false.
Proof. reflexivity. Qed.

Lemma Prim2SF_nan : Prim2SF nan = S754_nan.
Proof. reflexivity. Qed.

(** A positive number below infinity is finite. *)
Lemma positive_finite (b : float) :
  (0 <? b)%float = true -> (b <? infinity)%float = true ->
  exists m e, Prim2SF b = S754_finite false m e.
Proof.
  rewrite !ltb_spec, Prim2SF_zero, Prim2SF_infinity.
  destruct (Prim2SF b) as [[]|[]| |[] m e]; try discriminate. eauto.
Qed.

Lemma sub_self (b : float) :
  (0 <? b)%float = true -> (b <? infinity)%float = true ->
  (b - b)%float = 0%float /\ (b <=? b)%float = true.
Proof.
  intros Hpos Hfin. destruct (positive_finite b Hpos Hfin) as (m & e & Hb). split.
  - apply Prim2SF_inj. rewrite sub_spec, Hb, Prim2SF_zero.
    unfold SF64sub, SFsub. rewrite Z.min_id. unfold shl_align.
    rewrite !Z.sub_diag. reflexivity.
  - rewrite leb_spec, Hb. unfold SFleb, SFcompare.
    now rewrite Z.compare_refl, Pos.compare_cont_refl.
Qed.

Lemma leb_nan_r (x : float) : (x <=? nan)%float = false.
Proof. rewrite leb_spec, Prim2SF_nan. unfold SFleb. now float_cases (Prim2SF x). Qed.

Lemma add_nan_l (x : float) : (nan + x)%float = nan.
Proof. apply Prim2SF_inj. now rewrite add_spec, Prim2SF_nan. Qed.

(** *** Products and quotients of numbers that are at least zero *)

Lemma leb_zero_at_least (x : float) :
  (0 <=? x)%float = at_least_zero (Prim2SF x).
Proof. rewrite leb_spec, Prim2SF_zero. now float_cases (Prim2SF x). Qed.

Lemma is_positive_at_least_zero x : is_positive x = true -> at_least_zero x = true.
Proof. now float_cases x. Qed.

Lemma shr_1_nonneg mrs : (0 <= shr_m mrs)%Z -> (0 <= shr_m (shr_1 mrs))%Z.
Proof.
  destruct mrs as [m r s']. simpl. intros Hm.
  destruct m as [|[q|q|]|q]; simpl; lia.
Qed.

Lemma shr_nonneg mrs e n : (0 <= shr_m mrs)%Z -> (0 <= shr_m (shr mrs e n).1)%Z.
Proof.
  intros Hm. destruct n as [|q|q]; simpl; try exact Hm.
  rewrite iter_pos_nat. induction (Pos.to_nat q) as [|k IH]; simpl; [exact Hm |].
  now apply shr_1_nonneg.
Qed.

Lemma shr_fexp_nonneg m e l :
  (0 <= m)%Z -> (0 <= shr_m (shr_fexp prec emax m e l).1)%Z.
Proof.
  intros Hm. unfold shr_fexp. apply shr_nonneg.
  destruct l as [|[]]; exact Hm.
Qed.

Lemma round_nearest_even_nonneg m l :
  (0 <= m)%Z -> (0 <= round_nearest_even m l)%Z.
Proof.
  intros Hm. destruct l as [|[]]; simpl; try lia.
  destruct (Z.even m); lia.
Qed.

(** Rounding a mantissa that is not negative, with the sign plus, gives
    a number that is at least zero: never a NaN. *)
Lemma binary_round_aux_at_least_zero mx ex lx :
  (0 <= mx)%Z -> at_least_zero (binary_round_aux prec emax false mx ex lx) = true.
Proof.
  intros Hm. unfold binary_round_aux.
  pose proof (shr_fexp_nonneg mx ex lx Hm) as H1.
  destruct (shr_fexp prec emax mx ex lx) as [mrs' e']. simpl in H1.
  pose proof (shr_fexp_nonneg _ e' loc_Exact
                (round_nearest_even_nonneg _ (loc_of_shr_record mrs') H1)) as H2.
  destruct (shr_fexp prec emax _ e' loc_Exact) as [mrs'' e'']. simpl in H2.
  destruct (shr_m mrs''); [reflexivity | | lia].
  now destruct (e'' <=? emax - prec)%Z.
Qed.

Lemma SF64mul_finite_l m e y :
  at_least_zero y = true ->
  at_least_zero (SF64mul (S754_finite false m e) y) = true.
Proof.
  destruct y as [[]|[]| |[] my ey]; try discriminate; try reflexivity.
  intros _. unfold SF64mul, SFmul. cbn [xorb].
  apply binary_round_aux_at_least_zero. lia.
Qed.

Lemma SF64mul_finite_r x m e :
  at_least_zero x = true ->
  at_least_zero (SF64mul x (S754_finite false m e)) = true.
Proof.
  destruct x as [[]|[]| |[] mx ex]; try discriminate; try reflexivity.
  intros _. unfold SF64mul, SFmul. cbn [xorb].
  apply binary_round_aux_at_least_zero. lia.
Qed.

Lemma SF64div_finite_r x m e :
  at_least_zero x = true ->
  at_least_zero (SF64div x (S754_finite false m e)) = true.
Proof.
  destruct x as [[]|[]| |[] mx ex]; try discriminate; try reflexivity.
  intros _. unfold SF64div, SFdiv. cbn [xorb].
  unfold SFdiv_core_binary.
  set (s' := (ex - e - _)%Z).
  set (m' := match s' with Z0 => Z.pos mx | Z.pos _ => Z.shiftl (Z.pos mx) s' | Z.neg _ => 0%Z end).
  assert (0 <= m')%Z as Hm'.
  { unfold m'. destruct s'; try lia. apply Z.shiftl_nonneg. lia. }
  pose proof (Z_div_mod m' (Z.pos m) ltac:(lia)) as Hdiv.
  destruct (Z.div_eucl m' (Z.pos m)) as [q r].
  apply binary_round_aux_at_least_zero.
  destruct Hdiv as [Heq Hr]. nia.
Qed.

Lemma Prim2SF_double_of_Z (c : Z) :
  (0 <= c < 2 ^ 53)%Z ->
  Prim2SF (double_of_Z c) = binary_normalize prec emax c 0 false.
Proof.
  intros Hc. unfold double_of_Z. apply Prim2SF_SF2Prim.
  now apply normalize_integer_valid.
Qed.

(** *** Differences and comparisons of small integers are exact *)







End Binary64Facts.

(** ** DynamicArray: construction, access, copy and release *)
Module DynamicArrayFacts.
Import DynamicArray.

(** *** How the primitives act on a live block *)

Lemma subscript_live p i h cells :
  blocks h !! p = Some (Live cells) -> i < length cells ->
  subscript p i h = Ok ((p, i), h).
Proof.
  intros Hp Hi. unfold subscript. rewrite Hp.
  destruct (decide (i < length cells)); [reflexivity | lia].
Qed.

Lemma subscript_past_end p i h cells :
  blocks h !! p = Some (Live cells) -> length cells <= i ->
  subscript p i h = Undefined OutOfBounds.
Proof.
  intros Hp Hi. unfold subscript. rewrite Hp.
  destruct (decide (i < length cells)); [lia | reflexivity].
Qed.

Lemma subscript_freed p i h :
  blocks h !! p = Some Freed -> subscript p i h = Undefined UseAfterFree.
Proof. intros Hp. unfold subscript. now rewrite Hp. Qed.

Lemma assign_live p i v h cells :
  blocks h !! p = Some (Live cells) -> i < length cells ->
  (r ← subscript p i; store r v) h
  = Ok (tt, {| blocks := <[p := Live (<[i := Some v]> cells)]> (blocks h);
               avail := avail h |}).
Proof.
  intros Hp Hi. rewrite (bind_Ok _ _ _ _ _ (subscript_live _ _ _ _ Hp Hi)).
  unfold store; simpl. rewrite Hp.
  destruct (decide (i < length cells)); [reflexivity | lia].
Qed.

Lemma read_live p i h cells v :
  blocks h !! p = Some (Live cells) -> cells !! i = Some (Some v) ->
  (r ← subscript p i; load r) h = Ok (v, h).
Proof.
  intros Hp Hi.
  assert (i < length cells) as Hlt by (eapply lookup_lt_Some; eauto).
  rewrite (bind_Ok _ _ _ _ _ (subscript_live _ _ _ _ Hp Hlt)).
  unfold load; simpl. now rewrite Hp, Hi.
Qed.

(** The loop of the constructor writes [0] to the [k] elements from [i]
    on and to nothing else. *)
Lemma zero_loop p k : forall i bs av cells,
  bs !! p = Some (Live cells) -> i + k <= length cells ->
  for_range i k (fun j => r ← subscript p j; store r 0) {| blocks := bs; avail := av |}
  = Ok (tt, {| blocks := <[p := Live (take i cells ++ replicate k (Some 0%Z)
                                        ++ drop (i + k) cells)]> bs;
               avail := av |}).
Proof.
  induction k as [|k IH]; intros i bs av cells Hp Hlen; simpl.
  - rewrite Nat.add_0_r, take_drop, list_insert_id by done. reflexivity.
  - erewrite bind_Ok; last by (apply assign_live with (cells := cells); simpl; [done | lia]).
    simpl. rewrite (IH (S i) _ _ (<[i := Some 0%Z]> cells)).
    + rewrite list_insert_insert_eq. do 4 f_equal.
      rewrite drop_insert_lt by lia.
      rewrite (take_S_r _ _ (Some 0%Z)).
      * rewrite take_insert_ge by lia. rewrite <- app_assoc. simpl.
        now replace (i + S k) with (S (i + k)) by lia.
      * apply list_lookup_insert_eq. lia.
    + apply list_lookup_insert_eq. eapply lookup_lt_Some; eauto.
    + rewrite length_insert. lia.
Qed.

Lemma copy_step p q i h vs cells v :
  blocks h !! p = Some (Live (Some <$> vs)) ->
  blocks h !! q = Some (Live cells) ->
  vs !! i = Some v -> i < length cells ->
  (src ← subscript p i; x ← load src; dst ← subscript q i; store dst x) h
  = Ok (tt, {| blocks := <[q := Live (<[i := Some v]> cells)]> (blocks h);
               avail := avail h |}).
Proof.
  intros Hp Hq Hv Hi.
  assert ((Some <$> vs) !! i = Some (Some v)) as Hc
    by (rewrite list_lookup_fmap, Hv; reflexivity).
  assert (i < length (Some <$> vs)) as Hlt by (eapply lookup_lt_Some; eauto).
  rewrite (bind_Ok _ _ _ _ _ (subscript_live _ _ _ _ Hp Hlt)).
  erewrite bind_Ok; last by (unfold load; simpl; rewrite Hp, Hc).
  now apply assign_live.
Qed.

(** [std::copy] writes elements [i .. i + k) of the source block over the
    same elements of the destination and touches nothing else. *)
Lemma copy_loop p q k : p <> q -> forall i bs av vs cells,
  bs !! p = Some (Live (Some <$> vs)) -> bs !! q = Some (Live cells) ->
  i + k <= length vs -> i + k <= length cells ->
  for_range i k
    (fun j => src ← subscript p j; x ← load src; dst ← subscript q j; store dst x)
    {| blocks := bs; avail := av |}
  = Ok (tt, {| blocks := <[q := Live (take i cells ++ (Some <$> take k (drop i vs))
                                        ++ drop (i + k) cells)]> bs;
               avail := av |}).
Proof.
  intros Hpq. induction k as [|k IH]; intros i bs av vs cells Hp Hq Hvs Hcells; simpl.
  - rewrite Nat.add_0_r, take_drop, list_insert_id by done. reflexivity.
  - destruct (lookup_lt_is_Some_2 vs i) as [v Hv]; [lia |].
    erewrite bind_Ok; last by (eapply copy_step; simpl; eauto; lia).
    simpl. rewrite (IH (S i) _ _ vs (<[i := Some v]> cells)).
    + rewrite list_insert_insert_eq. do 4 f_equal.
      rewrite drop_insert_lt by lia.
      rewrite (take_S_r _ _ (Some v)) by (apply list_lookup_insert_eq; lia).
      rewrite take_insert_ge by lia. rewrite <- app_assoc.
      rewrite (drop_S _ _ _ Hv). simpl.
      now replace (i + S k) with (S (i + k)) by lia.
    + now rewrite list_lookup_insert_ne by done.
    + apply list_lookup_insert_eq. eapply lookup_lt_Some; eauto.
    + lia.
    + rewrite length_insert. lia.
Qed.

(** *** What the constructors, the destructor and [operator[]] do *)

Lemma constructor_ok n h :
  n <= avail h ->
  constructor n h
  = Ok ({| data := length (blocks h); size := n |},
        {| blocks := blocks h ++ [Live (replicate n (Some 0%Z))];
           avail := avail h - n |}).
Proof.
  intros Hn. unfold constructor.
  erewrite bind_Ok; last by (unfold new_int_array; rewrite decide_True by done).
  simpl. erewrite bind_Ok.
  2:{ apply zero_loop with (cells := replicate n None).
      - now rewrite lookup_app_r, Nat.sub_diag by lia.
      - rewrite length_replicate. lia. }
  unfold mret, run_ret, ret. do 3 f_equal.
  rewrite drop_ge by (rewrite length_replicate; lia). simpl.
  rewrite app_nil_r.
  replace (length (blocks h)) with (length (blocks h) + 0) at 1 by lia.
  now rewrite insert_app_r.
Qed.

Lemma constructor_bad_alloc n h :
  avail h < n -> constructor n h = Throw AllocationError.
Proof.
  intros Hn. unfold constructor, mbind, run_bind, bind, new_int_array.
  rewrite decide_False by lia. reflexivity.
Qed.

Lemma replicate_Some_fmap (n : nat) (v : Z) :
  replicate n (Some v) = Some <$> replicate n v.
Proof. now rewrite fmap_replicate. Qed.

Lemma elementAt_holds this h vs i v :
  holds this h vs -> vs !! i = Some v -> elementAt this i h = Ok (v, h).
Proof.
  intros [Hb Hlen] Hv. unfold elementAt, operator_subscript.
  eapply read_live; [exact Hb |]. now rewrite list_lookup_fmap, Hv.
Qed.

Lemma setElementAt_holds this h vs i v :
  holds this h vs -> i < size this ->
  setElementAt this i v h
  = Ok (tt, {| blocks := <[data this := Live (Some <$> <[i := v]> vs)]> (blocks h);
               avail := avail h |}).
Proof.
  intros [Hb Hlen] Hi. unfold setElementAt, operator_subscript.
  rewrite (assign_live _ _ _ _ _ Hb) by (rewrite length_fmap; lia).
  now rewrite list_fmap_insert.
Qed.

Lemma copy_constructor_ok other h vs :
  holds other h vs -> size other <= avail h ->
  copy_constructor other h
  = Ok ({| data := length (blocks h); size := size other |},
        {| blocks := blocks h ++ [Live (Some <$> vs)];
           avail := avail h - size other |}).
Proof.
  intros [Hb Hlen] Hn. unfold copy_constructor.
  erewrite bind_Ok; last by (unfold new_int_array; rewrite decide_True by done).
  assert (data other < length (blocks h)) as Hlt by (eapply lookup_lt_Some; eauto).
  simpl. unfold std_copy. erewrite bind_Ok.
  2:{ apply copy_loop with (vs := vs) (cells := replicate (size other) None).
      - lia.
      - now rewrite lookup_app_l by lia.
      - now rewrite lookup_app_r, Nat.sub_diag by lia.
      - lia.
      - rewrite length_replicate. lia. }
  unfold mret, run_ret, ret. do 3 f_equal.
  rewrite drop_0, (take_ge vs) by lia.
  rewrite drop_ge by (rewrite length_replicate; lia). simpl. rewrite app_nil_r.
  replace (length (blocks h)) with (length (blocks h) + 0) at 1 by lia.
  now rewrite insert_app_r.
Qed.

Lemma destructor_holds this h vs :
  holds this h vs ->
  destructor this h
  = Ok (tt, {| blocks := <[data this := Freed]> (blocks h);
               avail := avail h + size this |}).
Proof.
  intros [Hb Hlen]. unfold destructor, delete_array. rewrite Hb.
  now rewrite length_fmap, Hlen.
Qed.

(** An in-range write replaces that element and nothing else. *)
Lemma setElementAt_effect this h vs i v :
  holds this h vs -> i < size this ->
  exists h',
    setElementAt this i v h = Ok (tt, h') /\
    holds this h' (<[i := v]> vs) /\
    avail h' = avail h /\
    forall p, p <> data this -> blocks h' !! p = blocks h !! p.
Proof.
  intros Hh Hi. pose proof Hh as [Hb Hlen]. eexists.
  split; [apply setElementAt_holds with (vs := vs); [exact Hh | exact Hi] |].
  split; [| split; [reflexivity |]].
  - split; simpl.
    + apply list_lookup_insert_eq. eapply lookup_lt_Some; eauto.
    + now rewrite length_insert.
  - intros p Hp. simpl. now rewrite list_lookup_insert_ne by done.
Qed.

(** Writing an element of one block leaves every other block as it was. *)
Lemma setElementAt_other_block this i v h h' p :
  setElementAt this i v h = Ok (tt, h') -> p <> data this ->
  blocks h' !! p = blocks h !! p.
Proof.
  unfold setElementAt, operator_subscript, mbind, run_bind, bind, subscript, store.
  intros E Hp.
  destruct (blocks h !! data this) as [[cells|]|] eqn:Hb; try discriminate.
  destruct (decide (i < length cells)); try discriminate.
  simpl in E. rewrite Hb in E.
  destruct (decide (i < length cells)); try discriminate.
  injection E as <-. simpl. now rewrite list_lookup_insert_ne by done.
Qed.

(** **** C4 *)

(** C4.  For every capacity [c], when [DynamicArray(c)] succeeds the new
    instance is valid, has capacity [c], and reading any element
    [i < c] returns [0] (and leaves the free store as it is). *)
Theorem create_zero_initialised (c : nat) (h : heap) (a : DynamicArray) (h' : heap) :
  constructor c h = Ok (a, h') ->
  valid a h' /\ getSize a = c /\
  forall i, i < c -> elementAt a i h' = Ok (0%Z, h').
Proof.
  intros E. destruct (decide (c <= avail h)) as [Hc|Hc].
  - rewrite constructor_ok in E by done. injection E as <- <-.
    assert (holds {| data := length (blocks h); size := c |}
              {| blocks := blocks h ++ [Live (replicate c (Some 0%Z))];
                 avail := avail h - c |} (replicate c 0%Z)) as Hh.
    { split; simpl.
      - now rewrite lookup_app_r, Nat.sub_diag, replicate_Some_fmap by lia.
      - apply length_replicate. }
    split; [by exists (replicate c 0%Z) |]. split; [reflexivity |].
    intros i Hi. eapply elementAt_holds; [exact Hh |].
    now apply lookup_replicate_2.
  - rewrite constructor_bad_alloc in E by lia. discriminate.
Qed.

(** The constructor does succeed on a host with room for three elements. *)
Lemma create_zero_initialised_witness :
  let a := {| data := 0; size := 3 |} in
  let h' := {| blocks := [Live [Some 0%Z; Some 0%Z; Some 0%Z]]; avail := 7 |} in
  valid a h' /\ getSize a = 3 /\
  forall i, i < 3 -> elementAt a i h' = Ok (0%Z, h').
Proof. apply (create_zero_initialised 3 (empty_heap 10)). reflexivity. Defined.

(** **** C2 *)

Lemma arr3_constructed : constructor 3 (empty_heap 10) = Ok (arr3, heap3).
Proof. reflexivity. Qed.

Lemma arr3_holds : holds arr3 heap3 [0%Z; 0%Z; 0%Z].
Proof. split; reflexivity. Qed.

(** C2, as the code has it.  On a valid instance of capacity [c], for
    [index < c] reading returns that element and leaves the free store as
    it is, and writing replaces that element and nothing else (no other
    element, no other block, not the room left on the host).  For
    [index >= c] the access is not checked: no [IndexOutOfRangeError] is
    raised, the behaviour is undefined (an access past the end). *)
Theorem element_access_unchecked (this : DynamicArray) (h : heap) (vs : list Z)
    (index : nat) :
  holds this h vs ->
  (index < getSize this ->
     (exists v, vs !! index = Some v /\ elementAt this index h = Ok (v, h)) /\
     (forall value, exists h',
         setElementAt this index value h = Ok (tt, h') /\
         holds this h' (<[index := value]> vs) /\
         avail h' = avail h /\
         forall p, p <> data this -> blocks h' !! p = blocks h !! p)) /\
  (getSize this <= index ->
     elementAt this index h = Undefined OutOfBounds /\
     forall value, setElementAt this index value h = Undefined OutOfBounds).
Proof.
  intros Hh. pose proof Hh as [Hb Hlen]. unfold getSize. split.
  - intros Hi. split.
    + destruct (lookup_lt_is_Some_2 vs index) as [v Hv]; [lia |].
      exists v. split; [done |]. now apply elementAt_holds with (vs := vs).
    + intros value. now apply setElementAt_effect.
  - intros Hi.
    assert (subscript (data this) index h = Undefined OutOfBounds) as Hs
      by (eapply subscript_past_end; [exact Hb | rewrite length_fmap; lia]).
    split; [| intros value];
      unfold elementAt, setElementAt, operator_subscript;
      now apply bind_Undefined.
Qed.

Lemma element_access_unchecked_witness :
  (exists v, [0%Z; 0%Z; 0%Z] !! 1 = Some v /\ elementAt arr3 1 heap3 = Ok (v, heap3)) /\
  elementAt arr3 3 heap3 = Undefined OutOfBounds.
Proof.
  split.
  - apply (element_access_unchecked arr3 heap3 [0%Z; 0%Z; 0%Z] 1 arr3_holds).
    unfold getSize; simpl; lia.
  - apply (element_access_unchecked arr3 heap3 [0%Z; 0%Z; 0%Z] 3 arr3_holds).
    unfold getSize; simpl; lia.
Defined.

(** C2 as stated fails: on a fresh array of capacity 3, reading or writing
    element 3 raises no [IndexOutOfRangeError]; the access is made
    unchecked, past the end of the storage. *)
Lemma element_access_past_end :
  constructor 3 (empty_heap 10) = Ok (arr3, heap3) /\
  elementAt arr3 3 heap3 = Undefined OutOfBounds /\
  setElementAt arr3 3 7 heap3 = Undefined OutOfBounds /\
  elementAt arr3 3 heap3 <> Throw IndexOutOfRangeError /\
  setElementAt arr3 3 7 heap3 <> Throw IndexOutOfRangeError.
Proof. repeat split; try reflexivity; discriminate. Qed.

(** **** C1 *)

(** C1, as the code has it.  The destructor of a valid instance frees its
    storage, returns its elements to the host and touches no other block;
    it leaves [data] dangling and keeps no validity flag.  Nothing after
    it is guarded and no [InvalidStateError] exists: reading or writing
    an element is a use after free, so is copying the instance when its
    capacity is positive (with capacity 0 the copy reads nothing and
    succeeds), and running the destructor again deletes the same storage
    a second time.  All of these are undefined behaviour. *)
Theorem release_unguarded (this : DynamicArray) (h : heap) (vs : list Z) :
  holds this h vs ->
  exists h',
    destructor this h = Ok (tt, h') /\
    blocks h' !! data this = Some Freed /\
    avail h' = avail h + getSize this /\
    (forall p, p <> data this -> blocks h' !! p = blocks h !! p) /\
    (forall index, elementAt this index h' = Undefined UseAfterFree) /\
    (forall index value, setElementAt this index value h' = Undefined UseAfterFree) /\
    (0 < getSize this -> copy_constructor this h' = Undefined UseAfterFree) /\
    (getSize this = 0 -> exists d h'', copy_constructor this h' = Ok (d, h'')) /\
    destructor this h' = Undefined DoubleFree.
Proof.
  intros Hh. pose proof Hh as [Hb Hlen]. unfold getSize.
  assert (data this < length (blocks h)) as Hlt by (eapply lookup_lt_Some; eauto).
  eexists. split; [now apply destructor_holds with (vs := vs) |].
  set (h' := {| blocks := <[data this := Freed]> (blocks h);
                avail := avail h + size this |}).
  assert (blocks h' !! data this = Some Freed) as Hf
    by (now apply list_lookup_insert_eq).
  split; [exact Hf |]. split; [reflexivity |].
  split; [intros p Hp; simpl; now rewrite list_lookup_insert_ne by done |].
  split; [| split; [| split; [| split]]].
  - intros index. unfold elementAt, operator_subscript.
    apply bind_Undefined. now apply subscript_freed.
  - intros index value. unfold setElementAt, operator_subscript.
    apply bind_Undefined. now apply subscript_freed.
  - intros Hpos. unfold copy_constructor.
    erewrite bind_Ok;
      last by (unfold new_int_array; rewrite decide_True by (simpl; lia)).
    simpl. apply bind_Undefined. unfold std_copy.
    destruct (size this) as [|n]; [lia |]. simpl.
    apply bind_Undefined, bind_Undefined, subscript_freed. simpl.
    rewrite lookup_app_l by (rewrite length_insert; lia).
    now apply list_lookup_insert_eq.
  - intros Hz. unfold copy_constructor, std_copy. rewrite Hz.
    do 2 eexists. reflexivity.
  - unfold destructor, delete_array. now rewrite Hf.
Qed.

Lemma release_unguarded_witness :
  exists h',
    destructor arr3 heap3 = Ok (tt, h') /\
    blocks h' !! data arr3 = Some Freed /\
    avail h' = avail heap3 + getSize arr3 /\
    (forall p, p <> data arr3 -> blocks h' !! p = blocks heap3 !! p) /\
    (forall index, elementAt arr3 index h' = Undefined UseAfterFree) /\
    (forall index value, setElementAt arr3 index value h' = Undefined UseAfterFree) /\
    (0 < getSize arr3 -> copy_constructor arr3 h' = Undefined UseAfterFree) /\
    (getSize arr3 = 0 -> exists d h'', copy_constructor arr3 h' = Ok (d, h'')) /\
    destructor arr3 h' = Undefined DoubleFree.
Proof. exact (release_unguarded arr3 heap3 [0%Z; 0%Z; 0%Z] arr3_holds). Defined.

(** C1 as stated fails: after the destructor has run on a fresh array of
    capacity 3, reading, writing and copying raise no [InvalidStateError]
    (they use the freed storage), and a second run of the destructor does
    fail: it frees the storage a second time. *)
Lemma release_not_idempotent :
  constructor 3 (empty_heap 10) = Ok (arr3, heap3) /\
  destructor arr3 heap3 = Ok (tt, heap3_released) /\
  destructor arr3 heap3_released = Undefined DoubleFree /\
  elementAt arr3 0 heap3_released = Undefined UseAfterFree /\
  setElementAt arr3 0 7 heap3_released = Undefined UseAfterFree /\
  copy_constructor arr3 heap3_released = Undefined UseAfterFree /\
  elementAt arr3 0 heap3_released <> Throw InvalidStateError.
Proof. repeat split; try reflexivity; discriminate. Qed.

(** **** C3 *)

Lemma main_example2_runs :
  main_example2 (empty_heap 10)
  = Ok ((10%Z, 99%Z), {| blocks := [Freed; Freed]; avail := 10 |}).
Proof. reflexivity. Qed.

Lemma setElementAt_other_contents this other i v h h' :
  setElementAt this i v h = Ok (tt, h') -> data other <> data this ->
  contents other h' = contents other h.
Proof.
  intros E Hne. unfold contents.
  now rewrite (setElementAt_other_block _ _ _ _ _ _ E Hne).
Qed.

(** C3.  Copying a valid instance [r] yields an instance of the same
    capacity, holding the same elements, in storage of its own (on a
    host with no room for it the copy throws [std::bad_alloc] instead).
    A write to an element of the copy succeeds and leaves [r] holding
    what it held, and the other way round; and in whatever later state a
    write to one of the two is made, the contents of the other are what
    they were before it.  In particular, in the
    scenario of the specification the original's element 0 is still 10
    and the copy's is 99. *)
Theorem duplicate_is_independent :
  (forall (r : DynamicArray) (h : heap) (vs : list Z),
      holds r h vs -> getSize r <= avail h ->
      exists d h1,
        copy_constructor r h = Ok (d, h1) /\
        getSize d = getSize r /\
        data d <> data r /\
        holds d h1 vs /\ holds r h1 vs /\
        (forall i v, i < getSize d -> exists h2,
            setElementAt d i v h1 = Ok (tt, h2) /\
            holds d h2 (<[i := v]> vs) /\ holds r h2 vs) /\
        (forall i v, i < getSize r -> exists h2,
            setElementAt r i v h1 = Ok (tt, h2) /\
            holds r h2 (<[i := v]> vs) /\ holds d h2 vs) /\
        (forall h2 i v h3,
            setElementAt d i v h2 = Ok (tt, h3) -> contents r h3 = contents r h2) /\
        (forall h2 i v h3,
            setElementAt r i v h2 = Ok (tt, h3) -> contents d h3 = contents d h2)) /\
  (forall (r : DynamicArray) (h : heap),
      avail h < getSize r -> copy_constructor r h = Throw AllocationError) /\
  (exists h, duplicate_scenario (empty_heap 10) = Ok ((10%Z, 99%Z), h)).
Proof.
  split; [| split; [| eexists; reflexivity]].
  2:{ intros r h Hroom. unfold copy_constructor, mbind, run_bind, bind, new_int_array.
      unfold getSize in Hroom. now rewrite decide_False by lia. }
  intros r h vs Hh Hroom. pose proof Hh as [Hb Hlen]. unfold getSize in *.
  assert (data r < length (blocks h)) as Hlt by (eapply lookup_lt_Some; eauto).
  set (d := {| data := length (blocks h); size := size r |}).
  set (h1 := {| blocks := blocks h ++ [Live (Some <$> vs)];
                avail := avail h - size r |}).
  assert (data d <> data r) as Hne by (simpl; lia).
  assert (holds d h1 vs) as Hd.
  { split; [| exact Hlen]. simpl. now rewrite lookup_app_r, Nat.sub_diag by lia. }
  assert (holds r h1 vs) as Hr.
  { split; [| exact Hlen]. simpl. now rewrite lookup_app_l by lia. }
  exists d, h1. split; [now apply copy_constructor_ok |].
  split; [reflexivity |]. split; [exact Hne |]. split; [exact Hd |].
  split; [exact Hr |].
  split; [| split; [| split]].
  - intros i v Hi.
    destruct (setElementAt_effect d h1 vs i v Hd Hi) as (h2 & E & Hd2 & _ & Hoth).
    exists h2. split; [exact E |]. split; [exact Hd2 |].
    split; [| exact Hlen]. rewrite Hoth by congruence. apply Hr.
  - intros i v Hi.
    destruct (setElementAt_effect r h1 vs i v Hr Hi) as (h2 & E & Hr2 & _ & Hoth).
    exists h2. split; [exact E |]. split; [exact Hr2 |].
    split; [| exact Hlen]. rewrite Hoth by congruence. apply Hd.
  - intros h2 i v h3 E. eapply setElementAt_other_contents; eauto.
  - intros h2 i v h3 E. eapply setElementAt_other_contents; eauto.
Qed.

Lemma duplicate_is_independent_witness :
  exists d h1,
    copy_constructor arr3 heap3 = Ok (d, h1) /\
    getSize d = getSize arr3 /\
    data d <> data arr3 /\
    holds d h1 [0%Z; 0%Z; 0%Z] /\ holds arr3 h1 [0%Z; 0%Z; 0%Z] /\
    (forall i v, i < getSize d -> exists h2,
        setElementAt d i v h1 = Ok (tt, h2) /\
        holds d h2 (<[i := v]> [0%Z; 0%Z; 0%Z]) /\ holds arr3 h2 [0%Z; 0%Z; 0%Z]) /\
    (forall i v, i < getSize arr3 -> exists h2,
        setElementAt arr3 i v h1 = Ok (tt, h2) /\
        holds arr3 h2 (<[i := v]> [0%Z; 0%Z; 0%Z]) /\ holds d h2 [0%Z; 0%Z; 0%Z]) /\
    (forall h2 i v h3,
        setElementAt d i v h2 = Ok (tt, h3) -> contents arr3 h3 = contents arr3 h2) /\
    (forall h2 i v h3,
        setElementAt arr3 i v h2 = Ok (tt, h3) -> contents d h3 = contents d h2).
Proof.
  apply (proj1 duplicate_is_independent arr3 heap3 [0%Z; 0%Z; 0%Z] arr3_holds).
  unfold getSize; simpl; lia.
Defined.

(** *** Round trips, lifetimes and frames *)

(** Writing then reading: the element written is read back, the others
    are as they were. *)
Theorem write_then_read (this : DynamicArray) (h : heap) (vs : list Z)
    (i : nat) (v : Z) :
  holds this h vs -> i < getSize this ->
  exists h',
    setElementAt this i v h = Ok (tt, h') /\
    elementAt this i h' = Ok (v, h') /\
    forall j w, j <> i -> vs !! j = Some w -> elementAt this j h' = Ok (w, h').
Proof.
  intros Hh Hi. unfold getSize in Hi.
  destruct (setElementAt_effect this h vs i v Hh Hi) as (h' & E & Hh' & _ & _).
  exists h'. split; [exact E |]. split.
  - eapply elementAt_holds; [exact Hh' |].
    apply list_lookup_insert_eq. destruct Hh as [_ Hlen]. lia.
  - intros j w Hj Hw. eapply elementAt_holds; [exact Hh' |].
    now rewrite list_lookup_insert_ne by done.
Qed.

Lemma write_then_read_witness :
  exists h',
    setElementAt arr3 1 20 heap3 = Ok (tt, h') /\
    elementAt arr3 1 h' = Ok (20%Z, h') /\
    forall j w, j <> 1 -> [0%Z; 0%Z; 0%Z] !! j = Some w ->
                elementAt arr3 j h' = Ok (w, h').
Proof.
  apply (write_then_read arr3 heap3 [0%Z; 0%Z; 0%Z] 1 20 arr3_holds).
  unfold getSize; simpl; lia.
Defined.

Lemma write_all_holds this ws : forall h vs,
  holds this h vs -> Forall (fun w => w.1 < size this) ws ->
  write_all this ws h
  = Ok (tt, {| blocks := <[data this := Live (Some <$> assigned vs ws)]> (blocks h);
               avail := avail h |}) /\
  holds this
    {| blocks := <[data this := Live (Some <$> assigned vs ws)]> (blocks h);
       avail := avail h |} (assigned vs ws).
Proof.
  induction ws as [|w ws IH]; intros h vs Hh Hall; simpl.
  - destruct Hh as [Hb Hlen]. unfold assigned; simpl.
    rewrite list_insert_id by exact Hb. split; [now destruct h | ].
    split; [exact Hb | exact Hlen].
  - apply Forall_cons in Hall as [Hw Hall].
    rewrite (bind_Ok _ _ _ _ _ (setElementAt_holds this h vs w.1 w.2 Hh Hw)).
    assert (holds this
              {| blocks := <[data this := Live (Some <$> <[w.1 := w.2]> vs)]> (blocks h);
                 avail := avail h |} (<[w.1 := w.2]> vs)) as Hh'.
    { destruct Hh as [Hb Hlen]. split; simpl.
      - apply list_lookup_insert_eq. eapply lookup_lt_Some; eauto.
      - now rewrite length_insert. }
    destruct (IH _ _ Hh' Hall) as [E Hfin]. simpl in E, Hfin.
    rewrite list_insert_insert_eq in E, Hfin. split; [exact E | exact Hfin].
Qed.

(** Scoped acquisition: an array constructed, assigned to at will (in
    range) and destroyed gives all of its storage back, and nothing else
    in the free store has changed. *)
Theorem construct_use_destroy (n : nat) (ws : list (nat * Z)) (h : heap) :
  n <= avail h -> Forall (fun w => w.1 < n) ws ->
  (arr ← constructor n; write_all arr ws;; destructor arr) h
  = Ok (tt, {| blocks := blocks h ++ [Freed]; avail := avail h |}).
Proof.
  intros Hn Hall.
  rewrite (bind_Ok _ _ _ _ _ (constructor_ok n h Hn)).
  set (arr := {| data := length (blocks h); size := n |}).
  set (h1 := {| blocks := blocks h ++ [Live (replicate n (Some 0%Z))];
                avail := avail h - n |}).
  assert (holds arr h1 (replicate n 0%Z)) as Hh.
  { split; simpl.
    - now rewrite lookup_app_r, Nat.sub_diag, replicate_Some_fmap by lia.
    - apply length_replicate. }
  destruct (write_all_holds arr ws h1 _ Hh Hall) as [E Hh2].
  rewrite (bind_Ok _ _ _ _ _ E).
  rewrite (destructor_holds _ _ _ Hh2). simpl.
  rewrite list_insert_insert_eq.
  replace (length (blocks h)) with (length (blocks h) + 0) at 1 by lia.
  rewrite insert_app_r. simpl. do 3 f_equal. lia.
Qed.

Lemma construct_use_destroy_witness :
  (arr ← constructor 5; write_all arr [(0, 10%Z); (1, 20%Z)];; destructor arr)
    (empty_heap 10)
  = Ok (tt, {| blocks := [] ++ [Freed]; avail := 10 |}).
Proof.
  apply (construct_use_destroy 5 [(0, 10%Z); (1, 20%Z)] (empty_heap 10)).
  - simpl; lia.
  - repeat constructor; simpl; lia.
Defined.

(** The copy has a lifetime of its own: after the original is destroyed
    the copy still holds its elements, and destroying it as well gives
    back the storage of both, each block deleted once.  In the order of
    [main] (the copy destroyed first) the original is untouched. *)
Theorem copy_outlives_original (r : DynamicArray) (h : heap) (vs : list Z) :
  holds r h vs -> getSize r <= avail h ->
  exists d h1,
    copy_constructor r h = Ok (d, h1) /\
    (exists h2,
        destructor r h1 = Ok (tt, h2) /\
        holds d h2 vs /\
        (forall i v, vs !! i = Some v -> elementAt d i h2 = Ok (v, h2)) /\
        exists h3,
          destructor d h2 = Ok (tt, h3) /\
          avail h3 = avail h + getSize r /\
          blocks h3 !! data r = Some Freed /\
          blocks h3 !! data d = Some Freed) /\
    (exists h2,
        destructor d h1 = Ok (tt, h2) /\
        holds r h2 vs /\
        avail h2 = avail h).
Proof.
  intros Hh Hroom. pose proof Hh as [Hb Hlen]. unfold getSize in *.
  assert (data r < length (blocks h)) as Hlt by (eapply lookup_lt_Some; eauto).
  set (d := {| data := length (blocks h); size := size r |}).
  set (h1 := {| blocks := blocks h ++ [Live (Some <$> vs)];
                avail := avail h - size r |}).
  assert (holds d h1 vs) as Hd.
  { split; [| exact Hlen]. simpl. now rewrite lookup_app_r, Nat.sub_diag by lia. }
  assert (holds r h1 vs) as Hr.
  { split; [| exact Hlen]. simpl. now rewrite lookup_app_l by lia. }
  exists d, h1. split; [now apply copy_constructor_ok |]. split.
  - eexists. split; [apply (destructor_holds _ _ _ Hr) |].
    assert (holds d {| blocks := <[data r := Freed]> (blocks h1);
                       avail := avail h1 + size r |} vs) as Hd2.
    { split; [| exact Hlen]. simpl.
      rewrite list_lookup_insert_ne by lia.
      now rewrite lookup_app_r, Nat.sub_diag by lia. }
    split; [exact Hd2 |]. split.
    + intros i v Hv. now apply elementAt_holds with (vs := vs).
    + eexists. split; [apply (destructor_holds _ _ _ Hd2) |]. simpl.
      split; [lia |]. split.
      * rewrite list_lookup_insert_ne by lia.
        apply list_lookup_insert_eq. rewrite length_app. simpl. lia.
      * apply list_lookup_insert_eq. rewrite length_insert, length_app. simpl. lia.
  - eexists. split; [apply (destructor_holds _ _ _ Hd) |]. simpl.
    split; [| lia]. split; [| exact Hlen]. simpl.
    rewrite list_lookup_insert_ne by lia. now rewrite lookup_app_l by lia.
Qed.

Lemma copy_outlives_original_witness :
  exists d h1,
    copy_constructor arr3 heap3 = Ok (d, h1) /\
    (exists h2,
        destructor arr3 h1 = Ok (tt, h2) /\
        holds d h2 [0%Z; 0%Z; 0%Z] /\
        (forall i v, [0%Z; 0%Z; 0%Z] !! i = Some v -> elementAt d i h2 = Ok (v, h2)) /\
        exists h3,
          destructor d h2 = Ok (tt, h3) /\
          avail h3 = avail heap3 + getSize arr3 /\
          blocks h3 !! data arr3 = Some Freed /\
          blocks h3 !! data d = Some Freed) /\
    (exists h2,
        destructor d h1 = Ok (tt, h2) /\
        holds arr3 h2 [0%Z; 0%Z; 0%Z] /\
        avail h2 = avail heap3).
Proof.
  apply (copy_outlives_original arr3 heap3 [0%Z; 0%Z; 0%Z] arr3_holds).
  unfold getSize; simpl; lia.
Defined.

(** Assignments compose as on an array: a second assignment to the same
    element replaces the first, and assignments to different elements
    can be made in either order. *)
Theorem writes_overwrite_and_commute (this : DynamicArray) (h : heap) (vs : list Z)
    (i j : nat) (v w : Z) :
  holds this h vs -> i < getSize this -> j < getSize this ->
  (setElementAt this i v;; setElementAt this i w) h = setElementAt this i w h /\
  (i <> j ->
   (setElementAt this i v;; setElementAt this j w) h
   = (setElementAt this j w;; setElementAt this i v) h).
Proof.
  intros Hh Hi Hj. unfold getSize in *.
  assert (forall k x l, k < size this -> holds this h l ->
            holds this
              {| blocks := <[data this := Live (Some <$> <[k := x]> l)]> (blocks h);
                 avail := avail h |} (<[k := x]> l)) as Hstep.
  { intros k x l Hk [Hb Hlen]. split; simpl.
    - apply list_lookup_insert_eq. eapply lookup_lt_Some; eauto.
    - now rewrite length_insert. }
  split.
  - rewrite (bind_Ok _ _ _ _ _ (setElementAt_holds this h vs i v Hh Hi)).
    rewrite (setElementAt_holds _ _ _ i w (Hstep i v vs Hi Hh) Hi).
    rewrite (setElementAt_holds this h vs i w Hh Hi). simpl.
    now rewrite !list_insert_insert_eq.
  - intros Hne.
    rewrite (bind_Ok _ _ _ _ _ (setElementAt_holds this h vs i v Hh Hi)).
    rewrite (setElementAt_holds _ _ _ j w (Hstep i v vs Hi Hh) Hj).
    rewrite (bind_Ok _ _ _ _ _ (setElementAt_holds this h vs j w Hh Hj)).
    rewrite (setElementAt_holds _ _ _ i v (Hstep j w vs Hj Hh) Hi). simpl.
    rewrite !list_insert_insert_eq.
    now rewrite (list_insert_insert_ne vs j i w v) by done.
Qed.

Lemma writes_overwrite_and_commute_witness :
  (setElementAt arr3 0 10;; setElementAt arr3 0 20) heap3 = setElementAt arr3 0 20 heap3 /\
  (setElementAt arr3 0 10;; setElementAt arr3 1 20) heap3
  = (setElementAt arr3 1 20;; setElementAt arr3 0 10) heap3.
Proof.
  assert (0 < getSize arr3) as H0 by (unfold getSize; simpl; lia).
  assert (1 < getSize arr3) as H1 by (unfold getSize; simpl; lia).
  split.
  - apply (writes_overwrite_and_commute arr3 heap3 [0%Z; 0%Z; 0%Z] 0 1 10 20
             arr3_holds H0 H1).
  - apply (writes_overwrite_and_commute arr3 heap3 [0%Z; 0%Z; 0%Z] 0 1 10 20
             arr3_holds H0 H1). lia.
Defined.

(** Constructing an array succeeds exactly when the host has room for it
    and otherwise throws [std::bad_alloc]; it is never undefined.  The
    new array lives at an address that was never in use, and every array
    that was valid before is valid after, with the elements it had. *)
Theorem constructor_fresh_or_bad_alloc (n : nat) (h : heap) :
  (n <= avail h ->
   exists arr h',
     constructor n h = Ok (arr, h') /\
     blocks h !! data arr = None /\
     avail h' = avail h - n /\
     forall other vs, holds other h vs -> holds other h' vs /\ data other <> data arr) /\
  (avail h < n -> constructor n h = Throw AllocationError).
Proof.
  split.
  - intros Hn. do 2 eexists. split; [now apply constructor_ok |]. simpl.
    split; [apply lookup_ge_None_2; lia |]. split; [reflexivity |].
    intros other vs [Hb Hlen].
    assert (data other < length (blocks h)) by (eapply lookup_lt_Some; eauto).
    split; [| lia]. split; [| exact Hlen]. simpl. now rewrite lookup_app_l by lia.
  - apply constructor_bad_alloc.
Qed.

Lemma constructor_fresh_or_bad_alloc_witness :
  (exists arr h',
     constructor 3 heap3 = Ok (arr, h') /\
     blocks heap3 !! data arr = None /\
     avail h' = avail heap3 - 3 /\
     forall other vs, holds other heap3 vs -> holds other h' vs /\ data other <> data arr) /\
  constructor 8 heap3 = Throw AllocationError.
Proof.
  split.
  - apply (proj1 (constructor_fresh_or_bad_alloc 3 heap3)). simpl; lia.
  - apply (proj2 (constructor_fresh_or_bad_alloc 8 heap3)). simpl; lia.
Defined.

End DynamicArrayFacts.

(** ** ShoppingCart: entries and totals *)
Module ShoppingCartFacts.
Import ShoppingCart.

(** *** The erase-remove idiom is a filter *)

Lemma bool_filter_name (l : string) (v : list Item) :
  List.filter (fun item => negb (String.eqb (name item) l)) v
  = filter (fun item => name item <> l) v.
Proof.
  induction v as [|item v IH]; [reflexivity |]. simpl.
  rewrite filter_cons, IH.
  destruct (String.eqb_spec (name item) l) as [E|E]; simpl.
  - now rewrite decide_False by (intros H; apply H, E).
  - now rewrite decide_True by exact E.
Qed.

Lemma erase_remove_if {A} (pred : A -> bool) (v : list A) :
  erase (remove_if pred v).1 (remove_if pred v).2 (length (remove_if pred v).1)
  = List.filter (fun x => negb (pred x)) v.
Proof.
  unfold erase, remove_if. simpl.
  rewrite take_app_length, drop_all. apply app_nil_r.
Qed.

Lemma removeItem_filter this l st cart :
  st !! this = Some cart ->
  removeItem this l st
  = Ok (this, <[this := {| items := filter (fun item => name item <> l) (items cart) |}]> st).
Proof.
  intros Hc. unfold removeItem. rewrite Hc.
  pose proof (erase_remove_if (fun item => String.eqb (name item) l) (items cart)) as E.
  destruct (remove_if _ (items cart)) as [v new_end]. simpl in E.
  now rewrite E, bool_filter_name.
Qed.

(** *** The loop of [getTotal] is the sum in order *)

Lemma getTotal_loop_snoc total l item :
  getTotal_loop total (l ++ [item]) = (getTotal_loop total l + price item)%float.
Proof. revert total. induction l as [|x l IH]; intros total; simpl; [reflexivity | apply IH]. Qed.

Lemma getTotal_loop_sum (l : list Item) :
  getTotal_loop 0%float l = Binary64.sum_of_amounts (price <$> l).
Proof.
  induction l as [|item l IH] using rev_ind; [reflexivity |].
  rewrite getTotal_loop_snoc, fmap_app.
  change (price <$> [item]) with [price item].
  now rewrite Binary64Facts.sum_of_amounts_snoc, IH.
Qed.

Lemma addItem_appends this l x st cart :
  st !! this = Some cart ->
  addItem this l x st
  = Ok (this, <[this := {| items := items cart ++ [{| name := l; price := x |}] |}]> st).
Proof. intros Hc. unfold addItem. now rewrite Hc. Qed.

Lemma getTotal_sum this st cart :
  st !! this = Some cart ->
  getTotal this st = Ok (Binary64.sum_of_amounts (price <$> items cart), st).
Proof. intros Hc. unfold getTotal. now rewrite Hc, getTotal_loop_sum. Qed.

Lemma filter_all {A} (P : A -> Prop) `{forall x, Decision (P x)} (l : list A) :
  (forall x, x ∈ l -> P x) -> filter P l = l.
Proof.
  induction l as [|x l IH]; intros Hall; [reflexivity |].
  rewrite filter_cons, decide_True by (apply Hall; left).
  f_equal. apply IH. intros y Hy. apply Hall. now right.
Qed.

Lemma entries_of_filter l (v : list Item) :
  (fun item => (name item, price item)) <$> filter (fun item => name item <> l) v
  = filter (fun e : string * float => e.1 <> l)
      ((fun item => (name item, price item)) <$> v).
Proof.
  induction v as [|item v IH]; [reflexivity |].
  rewrite fmap_cons, !filter_cons. cbn [fst].
  destruct (decide (name item <> l)); [rewrite fmap_cons; f_equal |]; exact IH.
Qed.

Lemma entries_of_amounts (cart : ShoppingCart) :
  (entries_of cart).*2 = price <$> items cart.
Proof.
  unfold entries_of. rewrite <- list_fmap_compose. reflexivity.
Qed.

(** A sequence of calls on a live cart never fails, changes no other
    object, and leaves the entries the specification expects. *)
Lemma perform_all_entries this calls : forall st cart,
  st !! this = Some cart ->
  exists cart',
    perform_all this calls st = Ok (tt, <[this := cart']> st) /\
    entries_of cart' = entries_after calls (entries_of cart).
Proof.
  induction calls as [|c calls IH]; intros st cart Hc; simpl.
  - exists cart. split; [| reflexivity].
    unfold mret, run_ret, ret. now rewrite insert_id.
  - destruct c as [l x | l]; simpl.
    + rewrite (bind_Ok _ _ _ _ _ (addItem_appends _ l x _ _ Hc)).
      destruct (IH (<[this := {| items := items cart ++ [{| name := l; price := x |}] |}]> st)
                  {| items := items cart ++ [{| name := l; price := x |}] |})
        as (cart' & E & He); [apply lookup_insert_eq |].
      exists cart'. rewrite E, insert_insert_eq. split; [reflexivity |].
      rewrite He. unfold entries_of. simpl. now rewrite fmap_app.
    + rewrite (bind_Ok _ _ _ _ _ (removeItem_filter _ l _ _ Hc)).
      destruct (IH (<[this := {| items := filter (fun item => name item <> l) (items cart) |}]> st)
                  {| items := filter (fun item => name item <> l) (items cart) |})
        as (cart' & E & He); [apply lookup_insert_eq |].
      exists cart'. rewrite E, insert_insert_eq. split; [reflexivity |].
      rewrite He. unfold entries_of. simpl. now rewrite entries_of_filter.
Qed.

(** Whole prices, none negative, add up without rounding as long as the
    sum stays below 2^53. *)
Lemma getTotal_loop_exact (l : list Item) : forall (amounts : list Z) (acc : Z),
  price <$> l = Binary64.double_of_Z <$> amounts ->
  Forall (fun a => (0 <= a)%Z) amounts ->
  (0 <= acc)%Z -> (acc + foldr Z.add 0%Z amounts < 2 ^ 53)%Z ->
  getTotal_loop (Binary64.double_of_Z acc) l
  = Binary64.double_of_Z (acc + foldr Z.add 0%Z amounts).
Proof.
  induction l as [|item l IH]; intros [|a amounts] acc Hprices Hall Hacc Hbound;
    try discriminate Hprices.
  - simpl. now rewrite Z.add_0_r.
  - rewrite !fmap_cons in Hprices. injection Hprices as Hitem Hrest.
    apply Forall_cons in Hall as [Ha Hall].
    assert (0 <= foldr Z.add 0%Z amounts)%Z as Hsum.
    { clear -Hall. induction Hall; simpl; lia. }
    cbn [getTotal_loop foldr] in *. rewrite Hitem.
    rewrite Binary64Facts.double_of_Z_add by lia.
    rewrite (IH amounts (acc + a)%Z) by (try done; lia).
    f_equal. lia.
Qed.

(** **** C5 *)

(** C5, as the code has it.  [getTotal] on a live cart returns the
    prices of the entries present added in entry order, starting from
    0.0, each addition being the addition of doubles with its rounding,
    and leaves the store of objects as it is; it returns zero when the
    cart has no entry, as right after construction; and after any
    sequence of [addItem] / [removeItem] calls on a new cart it returns
    that in-order sum over the entries added and not removed since.
    When the prices are whole numbers, none negative, whose sum is below
    2^53, no addition is rounded and the total is their exact sum. *)
Theorem total_is_sum_of_amounts :
  (forall this st cart,
      st !! this = Some cart ->
      getTotal this st = Ok (Binary64.sum_of_amounts (price <$> items cart), st)) /\
  (forall this st cart,
      st !! this = Some cart -> items cart = [] ->
      getTotal this st = Ok (0%float, st)) /\
  (forall this st,
      (constructor this;; getTotal this) st
      = Ok (0%float, <[this := {| items := [] |}]> st)) /\
  (forall this st calls, exists cart',
      (constructor this;; perform_all this calls;; getTotal this) st
      = Ok (Binary64.sum_of_amounts (entries_after calls []).*2, <[this := cart']> st) /\
      entries_of cart' = entries_after calls []) /\
  (forall this st cart (amounts : list Z),
      st !! this = Some cart ->
      price <$> items cart = Binary64.double_of_Z <$> amounts ->
      Forall (fun a => (0 <= a)%Z) amounts ->
      (foldr Z.add 0%Z amounts < 2 ^ 53)%Z ->
      getTotal this st = Ok (Binary64.double_of_Z (foldr Z.add 0%Z amounts), st)).
Proof.
  split; [| split; [| split; [| split]]].
  - intros this st cart Hc. now apply getTotal_sum.
  - intros this st cart Hc Hnil. rewrite (getTotal_sum _ _ _ Hc), Hnil. reflexivity.
  - intros this st. unfold constructor, getTotal, mbind, run_bind, bind.
    now rewrite lookup_insert_eq.
  - intros this st calls.
    destruct (perform_all_entries this calls (<[this := {| items := [] |}]> st)
                {| items := [] |}) as (cart' & E & He); [apply lookup_insert_eq |].
    exists cart'. split; [| exact He].
    erewrite bind_Ok; last reflexivity.
    rewrite (bind_Ok _ _ _ _ _ E), insert_insert_eq.
    rewrite (getTotal_sum _ _ cart') by apply lookup_insert_eq.
    now rewrite <- entries_of_amounts, He.
  - intros this st cart amounts Hc Hprices Hall Hbound.
    unfold getTotal. rewrite Hc.
    change 0%float with (Binary64.double_of_Z 0).
    now rewrite (getTotal_loop_exact _ amounts 0) by (try done; lia).
Qed.

Lemma total_is_sum_of_amounts_witness :
  getTotal 0 {[0 := cart3]} = Ok (3.50%float, {[0 := cart3]}).
Proof.
  exact (proj1 total_is_sum_of_amounts 0 {[0 := cart3]} cart3 eq_refl).
Defined.

(** C5 as stated fails for prices of different magnitudes: the total is
    a double and every addition is rounded.  Next to 1e16 the doubles
    are 2 apart, so a cart with the prices 1e16, 1, -1e16 in this order
    totals 0, although their sum, 1, is a double; with the same entries
    in the order 1e16, -1e16, 1 it totals 1.  Without a negative price:
    1e16, 1, 1 total 1e16, and 1, 1, 1e16 total 1e16 + 2, their sum. *)
Lemma total_depends_on_order :
  getTotal 0 {[0 := {| items := [ {| name := "Safe"; price := 1e16 |};
                                  {| name := "Pen"; price := 1 |};
                                  {| name := "Refund"; price := -1e16 |} ] |}]}
  = Ok (0%float,
        {[0 := {| items := [ {| name := "Safe"; price := 1e16 |};
                             {| name := "Pen"; price := 1 |};
                             {| name := "Refund"; price := -1e16 |} ] |}]}) /\
  getTotal 0 {[0 := {| items := [ {| name := "Safe"; price := 1e16 |};
                                  {| name := "Refund"; price := -1e16 |};
                                  {| name := "Pen"; price := 1 |} ] |}]}
  = Ok (1%float,
        {[0 := {| items := [ {| name := "Safe"; price := 1e16 |};
                             {| name := "Refund"; price := -1e16 |};
                             {| name := "Pen"; price := 1 |} ] |}]}) /\
  [1e16; 1; -1e16]%float = Binary64.double_of_Z <$> [10 ^ 16; 1; - 10 ^ 16]%Z /\
  foldr Z.add 0%Z [10 ^ 16; 1; - 10 ^ 16]%Z = 1%Z /\
  Binary64.double_of_Z 1 = 1%float /\
  getTotal_loop 0 [ {| name := "Safe"; price := 1e16 |};
                    {| name := "Pen"; price := 1 |};
                    {| name := "Ink"; price := 1 |} ] = 1e16%float /\
  getTotal_loop 0 [ {| name := "Pen"; price := 1 |};
                    {| name := "Ink"; price := 1 |};
                    {| name := "Safe"; price := 1e16 |} ]
  = Binary64.double_of_Z (10 ^ 16 + 2).
Proof. repeat split; reflexivity. Qed.

(** **** C6 *)

(** C6.  [removeItem] on a live cart keeps exactly the entries whose name
    differs from the given one, compared byte for byte, in the order they
    were in; it returns the cart it was called on; and when no entry has
    that name it changes nothing and does not fail.  In [main], the cart
    with Apple 1.50, Banana 0.75, Orange 1.25 totals 3.50, and after
    [removeItem("Banana")] it holds Apple then Orange and totals 2.75;
    [removeItem("banana")] would leave it as it is. *)
Theorem removeItem_removes_label :
  (forall this st cart l,
      st !! this = Some cart ->
      exists kept,
        removeItem this l st = Ok (this, <[this := {| items := kept |}]> st) /\
        kept = filter (fun item => name item <> l) (items cart) /\
        (forall item, item ∈ kept <-> item ∈ items cart /\ name item <> l) /\
        kept `sublist_of` items cart /\
        ((forall item, item ∈ items cart -> name item <> l) ->
         removeItem this l st = Ok (this, st))) /\
  main_solution4 0 ∅
  = Ok (([("Apple", 1.50%float); ("Banana", 0.75%float); ("Orange", 1.25%float)],
         3.50%float,
         ([("Apple", 1.50%float); ("Orange", 1.25%float)], 2.75%float)),
        {[0 := {| items := [ {| name := "Apple"; price := 1.50 |};
                             {| name := "Orange"; price := 1.25 |} ] |}]}) /\
  removeItem 0 "banana" {[0 := cart3]} = Ok (0, {[0 := cart3]}).
Proof.
  split; [| split; reflexivity].
  intros this st cart l Hc. eexists.
  split; [apply removeItem_filter; exact Hc |].
  split; [reflexivity |]. split; [| split].
  - intros item. rewrite list_elem_of_filter. tauto.
  - apply sublist_filter.
  - intros Hall. rewrite (removeItem_filter _ _ _ _ Hc), filter_all by exact Hall.
    destruct cart. now rewrite insert_id.
Qed.

Lemma removeItem_removes_label_witness :
  exists kept,
    removeItem 0 "Banana" {[0 := cart3]}
    = Ok (0, <[0 := {| items := kept |}]> {[0 := cart3]}) /\
    kept = filter (fun item => name item <> "Banana") (items cart3) /\
    (forall item, item ∈ kept <-> item ∈ items cart3 /\ name item <> "Banana") /\
    kept `sublist_of` items cart3 /\
    ((forall item, item ∈ items cart3 -> name item <> "Banana") ->
     removeItem 0 "Banana" {[0 := cart3]} = Ok (0, {[0 := cart3]})).
Proof.
  exact (proj1 removeItem_removes_label 0 {[0 := cart3]} cart3 "Banana" eq_refl).
Defined.

(** **** C7 *)

(** C7.  [addItem] on a live cart does not fail, appends its pair at the
    end of the entries and returns the cart it was called on; so the
    chained call [a.addItem(l1, x1).addItem(l2, x2)] and the two
    statements [a.addItem(l1, x1); a.addItem(l2, x2);] end in the same
    state, with both entries at the end in call order. *)
Theorem addItem_chains (a : nat) (st : gmap nat ShoppingCart) (cart : ShoppingCart)
    (l1 : string) (x1 : float) (l2 : string) (x2 : float) :
  st !! a = Some cart ->
  addItem a l1 x1 st
  = Ok (a, <[a := {| items := items cart ++ [{| name := l1; price := x1 |}] |}]> st) /\
  (r ← addItem a l1 x1; addItem r l2 x2) st
  = (addItem a l1 x1;; addItem a l2 x2) st /\
  (r ← addItem a l1 x1; addItem r l2 x2) st
  = Ok (a, <[a := {| items := items cart ++ [{| name := l1; price := x1 |};
                                              {| name := l2; price := x2 |}] |}]> st).
Proof.
  intros Hc. pose proof (addItem_appends a l1 x1 st cart Hc) as E1.
  split; [exact E1 |].
  rewrite !(bind_Ok _ _ _ _ _ E1). split; [reflexivity |].
  erewrite addItem_appends by apply lookup_insert_eq. simpl.
  now rewrite insert_insert_eq, <- app_assoc.
Qed.

Lemma addItem_chains_witness :
  addItem 0 "x" 1%float {[0 := {| items := [] |}]}
  = Ok (0, <[0 := {| items := [] ++ [{| name := "x"; price := 1 |}] |}]>
             {[0 := {| items := [] |}]}) /\
  (r ← addItem 0 "x" 1%float; addItem r "y" 2%float) {[0 := {| items := [] |}]}
  = (addItem 0 "x" 1%float;; addItem 0 "y" 2%float) {[0 := {| items := [] |}]} /\
  (r ← addItem 0 "x" 1%float; addItem r "y" 2%float) {[0 := {| items := [] |}]}
  = Ok (0, <[0 := {| items := [] ++ [{| name := "x"; price := 1 |};
                                     {| name := "y"; price := 2 |}] |}]>
             {[0 := {| items := [] |}]}).
Proof.
  exact (addItem_chains 0 {[0 := {| items := [] |}]} {| items := [] |}
           "x" 1%float "y" 2%float eq_refl).
Defined.

(** *** How [addItem], [removeItem] and [getTotal] compose *)

Lemma cart3_live : ({[0 := cart3]} : gmap nat ShoppingCart) !! 0 = Some cart3.
Proof. reflexivity. Qed.

Lemma keep_snoc (l : string) (v : list Item) (item : Item) :
  filter (fun i => name i <> l) (v ++ [item])
  = filter (fun i => name i <> l) v ++ (if decide (name item <> l) then [item] else []).
Proof.
  rewrite filter_app, filter_cons, filter_nil.
  now destruct (decide (name item <> l)).
Qed.

Lemma keep_comm (l1 l2 : string) (v : list Item) :
  filter (fun i => name i <> l1) (filter (fun i => name i <> l2) v)
  = filter (fun i => name i <> l2) (filter (fun i => name i <> l1) v).
Proof.
  induction v as [|item v IH]; [reflexivity |].
  rewrite !filter_cons.
  destruct (decide (name item <> l2)), (decide (name item <> l1));
    rewrite ?filter_cons, ?decide_True, ?decide_False by done; now rewrite IH.
Qed.

Lemma removeItem_twice this l1 l2 st cart :
  st !! this = Some cart ->
  (r ← removeItem this l1; removeItem r l2) st
  = Ok (this, <[this := {| items := filter (fun i => name i <> l2)
                                      (filter (fun i => name i <> l1) (items cart)) |}]> st).
Proof.
  intros Hc. rewrite (bind_Ok _ _ _ _ _ (removeItem_filter _ l1 _ _ Hc)).
  erewrite removeItem_filter by apply lookup_insert_eq. simpl.
  now rewrite insert_insert_eq.
Qed.

(** Removing a name twice is removing it once, and after a removal no
    entry of the cart has that name. *)
Theorem removeItem_idempotent (this : nat) (st : gmap nat ShoppingCart)
    (cart : ShoppingCart) (l : string) :
  st !! this = Some cart ->
  (r ← removeItem this l; removeItem r l) st = removeItem this l st /\
  exists cart',
    removeItem this l st = Ok (this, <[this := cart']> st) /\
    forall item, item ∈ items cart' -> name item <> l.
Proof.
  intros Hc. split.
  - rewrite (removeItem_twice _ _ _ _ _ Hc), (removeItem_filter _ _ _ _ Hc).
    now rewrite list_filter_filter_r by done.
  - eexists. split; [apply removeItem_filter; exact Hc |]. simpl.
    intros item Hin. now apply list_elem_of_filter in Hin as [Hne _].
Qed.

Lemma removeItem_idempotent_witness :
  (r ← removeItem 0 "Banana"; removeItem r "Banana") {[0 := cart3]}
  = removeItem 0 "Banana" {[0 := cart3]} /\
  exists cart',
    removeItem 0 "Banana" {[0 := cart3]} = Ok (0, <[0 := cart']> {[0 := cart3]}) /\
    forall item, item ∈ items cart' -> name item <> "Banana".
Proof. exact (removeItem_idempotent 0 {[0 := cart3]} cart3 "Banana" cart3_live). Defined.

(** Adding an entry and then removing its name leaves what removing the
    name alone leaves; in a cart with no entry of that name the two
    calls restore the cart exactly. *)
Theorem addItem_then_removeItem (this : nat) (st : gmap nat ShoppingCart)
    (cart : ShoppingCart) (l : string) (x : float) :
  st !! this = Some cart ->
  (r ← addItem this l x; removeItem r l) st = removeItem this l st /\
  ((forall item, item ∈ items cart -> name item <> l) ->
   (r ← addItem this l x; removeItem r l) st = Ok (this, st)).
Proof.
  intros Hc.
  assert ((r ← addItem this l x; removeItem r l) st = removeItem this l st) as E.
  { rewrite (bind_Ok _ _ _ _ _ (addItem_appends _ l x _ _ Hc)).
    erewrite removeItem_filter by apply lookup_insert_eq.
    rewrite (removeItem_filter _ _ _ _ Hc). simpl.
    rewrite insert_insert_eq, keep_snoc. simpl.
    rewrite decide_False by (intros H; now apply H). now rewrite app_nil_r. }
  split; [exact E |].
  intros Hall. rewrite E, (removeItem_filter _ _ _ _ Hc), filter_all by exact Hall.
  destruct cart. now rewrite insert_id.
Qed.

Lemma addItem_then_removeItem_witness :
  (r ← addItem 0 "Kiwi" 2%float; removeItem r "Kiwi") {[0 := cart3]}
  = removeItem 0 "Kiwi" {[0 := cart3]} /\
  (r ← addItem 0 "Kiwi" 2%float; removeItem r "Kiwi") {[0 := cart3]}
  = Ok (0, {[0 := cart3]}).
Proof.
  split.
  - apply (proj1 (addItem_then_removeItem 0 {[0 := cart3]} cart3 "Kiwi" 2%float
                    cart3_live)).
  - apply (proj2 (addItem_then_removeItem 0 {[0 := cart3]} cart3 "Kiwi" 2%float
                    cart3_live)).
    intros item Hin. unfold cart3 in Hin. simpl in Hin.
    repeat (apply elem_of_cons in Hin as [->|Hin]; [discriminate |]).
    now apply elem_of_nil in Hin.
Defined.

(** Removals of two names can be made in either order, and a removal
    can be moved across the addition of an entry with another name. *)
Theorem removals_commute (this : nat) (st : gmap nat ShoppingCart)
    (cart : ShoppingCart) (l1 l2 : string) (x : float) :
  st !! this = Some cart ->
  (r ← removeItem this l1; removeItem r l2) st
  = (r ← removeItem this l2; removeItem r l1) st /\
  (l1 <> l2 ->
   (r ← addItem this l1 x; removeItem r l2) st
   = (r ← removeItem this l2; addItem r l1 x) st).
Proof.
  intros Hc. split.
  - rewrite !(removeItem_twice _ _ _ _ _ Hc). now rewrite keep_comm.
  - intros Hne.
    rewrite (bind_Ok _ _ _ _ _ (addItem_appends _ l1 x _ _ Hc)).
    erewrite removeItem_filter by apply lookup_insert_eq.
    rewrite (bind_Ok _ _ _ _ _ (removeItem_filter _ l2 _ _ Hc)).
    erewrite addItem_appends by apply lookup_insert_eq. simpl.
    rewrite !insert_insert_eq, keep_snoc. simpl.
    now rewrite decide_True by exact Hne.
Qed.

Lemma removals_commute_witness :
  (r ← removeItem 0 "Apple"; removeItem r "Banana") {[0 := cart3]}
  = (r ← removeItem 0 "Banana"; removeItem r "Apple") {[0 := cart3]} /\
  (r ← addItem 0 "Apple" 2%float; removeItem r "Banana") {[0 := cart3]}
  = (r ← removeItem 0 "Banana"; addItem r "Apple" 2%float) {[0 := cart3]}.
Proof.
  split.
  - apply (proj1 (removals_commute 0 {[0 := cart3]} cart3 "Apple" "Banana" 2%float
                    cart3_live)).
  - apply (proj2 (removals_commute 0 {[0 := cart3]} cart3 "Apple" "Banana" 2%float
                    cart3_live)).
    discriminate.
Defined.

(** Adding an entry raises the total by its price (a double addition to
    the total before), whatever the price. *)
Theorem addItem_raises_total (this : nat) (st : gmap nat ShoppingCart)
    (cart : ShoppingCart) (l : string) (x t : float) :
  st !! this = Some cart ->
  getTotal this st = Ok (t, st) ->
  exists st',
    addItem this l x st = Ok (this, st') /\
    getTotal this st' = Ok ((t + x)%float, st').
Proof.
  intros Hc Ht. eexists. split; [apply addItem_appends; exact Hc |].
  unfold getTotal in *. rewrite Hc in Ht. injection Ht as <-.
  rewrite lookup_insert_eq. simpl. now rewrite getTotal_loop_snoc.
Qed.

Lemma addItem_raises_total_witness :
  exists st',
    addItem 0 "Kiwi" 2%float {[0 := cart3]} = Ok (0, st') /\
    getTotal 0 st' = Ok ((3.5 + 2)%float, st').
Proof.
  exact (addItem_raises_total 0 {[0 := cart3]} cart3 "Kiwi" 2%float 3.5%float
           cart3_live eq_refl).
Defined.

End ShoppingCartFacts.

(** ** The static counters count the instances *)
Module StaticCounterFacts.
Import StaticInt.

(** [n] constructions whose constructor is [x = counter++] give the
    instances the consecutive values from the counter on, as long as the
    counter stays an [int]. *)
Lemma construct_n_ok {A} (mk : Z -> A) (n : nat) : forall s : Z,
  (s + Z.of_nat n <= INT_MAX)%Z ->
  construct_n (x ← post_increment; mret (mk x)) n s
  = Ok (mk <$> seqZ s (Z.of_nat n), (s + Z.of_nat n)%Z).
Proof.
  induction n as [|n IH]; intros s Hs.
  - simpl. unfold mret, run_ret, ret. do 2 f_equal. lia.
  - cbn [construct_n]. unfold mbind, run_bind, bind at 1.
    unfold mbind, run_bind, bind at 1. unfold post_increment at 1.
    rewrite decide_True by lia. cbn [mret run_ret ret].
    unfold bind at 1. rewrite IH by lia.
    rewrite Nat2Z.inj_succ, (seqZ_cons s) by lia.
    rewrite fmap_cons, Z.pred_succ.
    replace (s + 1 + Z.of_nat n)%Z with (s + Z.succ (Z.of_nat n))%Z by lia.
    now replace (s + 1)%Z with (Z.succ s) by lia.
Qed.

(** Once the counter would pass [INT_MAX] the run is undefined. *)
Lemma construct_n_overflow {A} (mk : Z -> A) (n : nat) : forall s : Z,
  (s <= INT_MAX)%Z -> (INT_MAX < s + Z.of_nat n)%Z ->
  construct_n (x ← post_increment; mret (mk x)) n s = Undefined SignedOverflow.
Proof.
  induction n as [|n IH]; intros s Hle Hs; [lia |].
  cbn [construct_n]. unfold mbind, run_bind, bind at 1.
  unfold mbind, run_bind, bind at 1. unfold post_increment at 1.
  destruct (decide (s < INT_MAX)%Z) as [Hlt|Hge]; [| reflexivity].
  cbn [mret run_ret ret]. unfold bind at 1. rewrite IH by lia. reflexivity.
Qed.

(** **** C8 *)

(** C8, as the code has it.  The static counter starts at a fixed value
    ([nextID] at 1, [totalCount] at 0); reading it leaves it as it is and
    a run of the declared, default constructor raises it by one.  The
    counter is an [int]: as long as the initial value plus [n] does not
    pass [INT_MAX], after [n] default constructions the counter is the
    initial value plus [n] and the instances so constructed hold the [n]
    consecutive values from the initial value on, all distinct.  A copy
    construction, through the implicit copy constructor, repeats the
    value of the original and leaves the counter as it is: copies are
    not counted. *)
Theorem instance_counter_counts (n : nat) :
  ((IDGenerator.nextID_initial + Z.of_nat n <= INT_MAX)%Z ->
   exists gens,
     construct_n IDGenerator.constructor n IDGenerator.nextID_initial
     = Ok (gens, (IDGenerator.nextID_initial + Z.of_nat n)%Z) /\
     IDGenerator.getID <$> gens = seqZ IDGenerator.nextID_initial (Z.of_nat n) /\
     length gens = n /\
     NoDup (IDGenerator.getID <$> gens)) /\
  ((GlobalCounter.totalCount_initial + Z.of_nat n <= INT_MAX)%Z ->
   exists counters,
     construct_n GlobalCounter.constructor n GlobalCounter.totalCount_initial
     = Ok (counters, (GlobalCounter.totalCount_initial + Z.of_nat n)%Z) /\
     GlobalCounter.getMyCount <$> counters
     = seqZ GlobalCounter.totalCount_initial (Z.of_nat n) /\
     length counters = n /\
     NoDup (GlobalCounter.getMyCount <$> counters)) /\
  (forall s, IDGenerator.getNextID s = Ok (s, s)) /\
  (forall s, GlobalCounter.getTotalCount s = Ok (s, s)) /\
  (forall s, (s < INT_MAX)%Z ->
             IDGenerator.constructor s = Ok ({| IDGenerator.myID := s |}, (s + 1)%Z)) /\
  (forall s, (s < INT_MAX)%Z ->
             GlobalCounter.constructor s
             = Ok ({| GlobalCounter.myCount := s |}, (s + 1)%Z)) /\
  (forall other s,
      exists copy,
        IDGenerator.copy_constructor other s = Ok (copy, s) /\
        IDGenerator.getID copy = IDGenerator.getID other) /\
  (forall other s,
      exists copy,
        GlobalCounter.copy_constructor other s = Ok (copy, s) /\
        GlobalCounter.getMyCount copy = GlobalCounter.getMyCount other).
Proof.
  split; [| split; [| split; [| split; [| split; [| split; [| split]]]]]];
    try reflexivity; try (intros other s; eexists; split; reflexivity).
  - intros Hn. eexists. split; [now apply construct_n_ok |].
    rewrite <- list_fmap_compose.
    assert (IDGenerator.getID ∘ IDGenerator.Build_IDGenerator <$>
              seqZ IDGenerator.nextID_initial (Z.of_nat n)
            = seqZ IDGenerator.nextID_initial (Z.of_nat n)) as ->
      by apply list_fmap_id.
    split; [reflexivity |]. split; [| apply NoDup_seqZ].
    rewrite length_fmap, length_seqZ. lia.
  - intros Hn. eexists. split; [now apply construct_n_ok |].
    rewrite <- list_fmap_compose.
    assert (GlobalCounter.getMyCount ∘ GlobalCounter.Build_GlobalCounter <$>
              seqZ GlobalCounter.totalCount_initial (Z.of_nat n)
            = seqZ GlobalCounter.totalCount_initial (Z.of_nat n)) as ->
      by apply list_fmap_id.
    split; [reflexivity |]. split; [| apply NoDup_seqZ].
    rewrite length_fmap, length_seqZ. lia.
  - intros s Hs. unfold IDGenerator.constructor, mbind, run_bind, bind, post_increment.
    now rewrite decide_True by done.
  - intros s Hs. unfold GlobalCounter.constructor, mbind, run_bind, bind, post_increment.
    now rewrite decide_True by done.
Qed.

(** The three instances of [main], in both files. *)
Lemma instance_counter_counts_witness :
  (exists gens,
     construct_n IDGenerator.constructor 3 IDGenerator.nextID_initial
     = Ok (gens, (IDGenerator.nextID_initial + Z.of_nat 3)%Z) /\
     IDGenerator.getID <$> gens = seqZ IDGenerator.nextID_initial (Z.of_nat 3) /\
     length gens = 3 /\
     NoDup (IDGenerator.getID <$> gens)) /\
  (exists counters,
     construct_n GlobalCounter.constructor 3 GlobalCounter.totalCount_initial
     = Ok (counters, (GlobalCounter.totalCount_initial + Z.of_nat 3)%Z) /\
     GlobalCounter.getMyCount <$> counters
     = seqZ GlobalCounter.totalCount_initial (Z.of_nat 3) /\
     length counters = 3 /\
     NoDup (GlobalCounter.getMyCount <$> counters)).
Proof.
  split.
  - apply (proj1 (instance_counter_counts 3)).
    unfold INT_MAX, IDGenerator.nextID_initial; lia.
  - apply (proj1 (proj2 (instance_counter_counts 3))).
    unfold INT_MAX, GlobalCounter.totalCount_initial; lia.
Defined.

Lemma main_static_members :
  construct_n IDGenerator.constructor 3 IDGenerator.nextID_initial
  = Ok ([ {| IDGenerator.myID := 1 |}; {| IDGenerator.myID := 2 |};
          {| IDGenerator.myID := 3 |} ], 4%Z) /\
  construct_n GlobalCounter.constructor 3 GlobalCounter.totalCount_initial
  = Ok ([ {| GlobalCounter.myCount := 0 |}; {| GlobalCounter.myCount := 1 |};
          {| GlobalCounter.myCount := 2 |} ], 3%Z).
Proof. split; reflexivity. Qed.

(** C8 as stated fails for large [n]: the counter is an [int], so 2^31
    constructions of [GlobalCounter] (2^31 - 1 of [IDGenerator]) do not
    leave it at the initial value plus [n]; the last increment is a
    signed overflow and the run is undefined.  It fails for copies too:
    [IDGenerator g1; IDGenerator g2 = g1;] constructs two instances that
    both hold 1 and leaves the counter at 2, one above its initial
    value; likewise for [GlobalCounter], with 0 and 1. *)
Lemma instance_counter_overflows :
  construct_n GlobalCounter.constructor (Z.to_nat 2147483648)
    GlobalCounter.totalCount_initial
  = Undefined SignedOverflow /\
  construct_n IDGenerator.constructor (Z.to_nat 2147483647)
    IDGenerator.nextID_initial
  = Undefined SignedOverflow /\
  (INT_MAX < GlobalCounter.totalCount_initial + 2147483648)%Z /\
  (INT_MAX < IDGenerator.nextID_initial + 2147483647)%Z /\
  (g1 ← IDGenerator.constructor; g2 ← IDGenerator.copy_constructor g1;
   mret (IDGenerator.getID <$> [g1; g2])) IDGenerator.nextID_initial
  = Ok ([1%Z; 1%Z], 2%Z) /\
  (c1 ← GlobalCounter.constructor; c4 ← GlobalCounter.copy_constructor c1;
   mret (GlobalCounter.getMyCount <$> [c1; c4])) GlobalCounter.totalCount_initial
  = Ok ([0%Z; 0%Z], 1%Z).
Proof.
  split; [| split; [| repeat split; reflexivity]].
  - apply (construct_n_overflow GlobalCounter.Build_GlobalCounter).
    + discriminate.
    + rewrite Z2Nat.id by discriminate. reflexivity.
  - apply (construct_n_overflow IDGenerator.Build_IDGenerator).
    + discriminate.
    + rewrite Z2Nat.id by discriminate. reflexivity.
Qed.

End StaticCounterFacts.

(** ** BankAccount: the guards of withdraw and deposit *)
Module BankAccountFacts.
Import BankAccount.

(** *** The balance never becomes negative *)







Lemma main_example4_runs :
  main_example4 = (1000%float, 1500%float, true, 1300%float, false).
Proof. reflexivity. Qed.

(** **** C9 *)




(** *** The owner, the whole balance, and NaN *)

(** No call changes the owner of an account. *)
Theorem owner_never_changes (this : BankAccount) (ts : list transaction) :
  getOwner (apply_all ts this) = getOwner this.
Proof.
  unfold apply_all, getOwner. revert this.
  induction ts as [|t ts IH]; intros this; [reflexivity |].
  simpl. rewrite IH. destruct t as [amount|amount]; simpl.
  - unfold withdraw.
    now destruct ((0 <? amount)%float && (amount <=? balance this)%float).
  - unfold deposit. now destruct (0 <? amount)%float.
Qed.

(** Withdrawing the whole of a positive, finite balance succeeds and
    leaves exactly zero. *)
Theorem withdraw_whole_balance (name : string) (b : float) :
  (0 <? b)%float = true -> (b <? infinity)%float = true ->
  withdraw b (constructor name b) = (true, constructor name 0%float).
Proof.
  intros Hpos Hfin. destruct (Binary64Facts.sub_self b Hpos Hfin) as [Hsub Hle].
  unfold withdraw, constructor. simpl. now rewrite Hpos, Hle, Hsub.
Qed.

Lemma withdraw_whole_balance_witness :
  withdraw 1300.0%float (constructor "Alice" 1300.0%float)
  = (true, constructor "Alice" 0%float).
Proof.
  apply (withdraw_whole_balance "Alice" 1300.0%float); reflexivity.
Defined.

(** The amounts are not checked for infinity: withdrawing an infinite
    amount from an infinite balance succeeds and leaves NaN.  An account
    whose balance is NaN is stuck: every [withdraw] is refused and no
    sequence of calls changes the balance. *)
Theorem nan_balance_is_stuck :
  (forall name,
      withdraw infinity (constructor name infinity) = (true, constructor name nan)) /\
  (forall this x, balance this = nan -> withdraw x this = (false, this)) /\
  (forall this ts, balance this = nan -> getBalance (apply_all ts this) = nan).
Proof.
  split; [reflexivity |].
  assert (forall this x, balance this = nan -> withdraw x this = (false, this)) as Hw.
  { intros this x Hnan. unfold withdraw.
    now rewrite Hnan, Binary64Facts.leb_nan_r, andb_false_r. }
  split; [exact Hw |].
  intros this ts. unfold apply_all, getBalance. revert this.
  induction ts as [|t ts IH]; intros this Hnan; [exact Hnan |].
  simpl. apply IH. destruct t as [amount|amount]; simpl.
  - now rewrite Hw.
  - unfold deposit. destruct (0 <? amount)%float; [| exact Hnan].
    simpl. rewrite Hnan. apply Binary64Facts.add_nan_l.
Qed.

Lemma nan_balance_is_stuck_witness :
  withdraw 5%float (constructor "Alice" nan) = (false, constructor "Alice" nan) /\
  getBalance (apply_all [Deposit 5%float; Withdraw 1%float] (constructor "Alice" nan)) = nan.
Proof.
  split.
  - apply (proj1 (proj2 nan_balance_is_stuck)). reflexivity.
  - apply (proj2 (proj2 nan_balance_is_stuck)). reflexivity.
Defined.

End BankAccountFacts.

(** ** Student: accepted grades and their mean *)
Module StudentFacts.
Import Student.

Lemma addGrade_in_range grade this :
  in_range grade ->
  addGrade grade this = {| name := name this; grades := grades this ++ [grade] |}.
Proof.
  intros [H0 H100]. unfold addGrade.
  apply Z.leb_le in H0, H100. now rewrite H0, H100.
Qed.

Lemma addGrade_out_of_range grade this :
  ~ in_range grade -> addGrade grade this = this.
Proof.
  intros Hout. unfold addGrade.
  destruct (Z.leb_spec 0 grade), (Z.leb_spec grade 100); simpl; try reflexivity.
  exfalso. apply Hout. unfold in_range. lia.
Qed.

Lemma addGrades_accepted gs : forall this,
  addGrades gs this
  = {| name := name this; grades := grades this ++ filter in_range gs |}.
Proof.
  unfold addGrades. induction gs as [|g gs IH]; intros this; simpl.
  - rewrite app_nil_r. now destruct this.
  - rewrite IH, filter_cons. destruct (decide (in_range g)) as [Hin|Hout].
    + rewrite addGrade_in_range by exact Hin. simpl. now rewrite <- app_assoc.
    + now rewrite addGrade_out_of_range by exact Hout.
Qed.

Lemma accumulate_snoc l g init :
  accumulate (l ++ [g]) init = (accumulate l init + Binary64.double_of_Z g)%float.
Proof. revert init. induction l as [|x l IH]; intros init; simpl; [reflexivity | apply IH]. Qed.

Lemma accumulate_sum l :
  accumulate l 0%float = Binary64.sum_of_amounts (Binary64.double_of_Z <$> l).
Proof.
  induction l as [|g l IH] using rev_ind; [reflexivity |].
  rewrite accumulate_snoc, fmap_app.
  change (Binary64.double_of_Z <$> [g]) with [Binary64.double_of_Z g].
  now rewrite Binary64Facts.sum_of_amounts_snoc, IH.
Qed.

(** Accepted grades add up without rounding as long as the sum stays
    below 2^53. *)
Lemma accumulate_exact l : forall acc : Z,
  (0 <= acc)%Z -> Forall in_range l ->
  (acc + 100 * Z.of_nat (length l) < 2 ^ 53)%Z ->
  accumulate l (Binary64.double_of_Z acc) = Binary64.double_of_Z (acc + total l).
Proof.
  induction l as [|g l IH]; intros acc Hacc Hall Hbound; simpl.
  - now rewrite Z.add_0_r.
  - apply Forall_cons in Hall as [[Hg0 Hg100] Hall].
    rewrite length_cons, Nat2Z.inj_succ in Hbound.
    rewrite Binary64Facts.double_of_Z_add by lia.
    rewrite IH by (try exact Hall; lia). f_equal. lia.
Qed.

Lemma getAverage_in_order this :
  grades this <> [] -> getAverage this = mean_in_order (grades this).
Proof.
  intros Hne. unfold getAverage, mean_in_order.
  destruct (grades this) as [|g gs] eqn:E; [done |].
  now rewrite accumulate_sum.
Qed.

Lemma getAverage_exact this :
  grades this <> [] -> Forall in_range (grades this) ->
  (100 * Z.of_nat (length (grades this)) < 2 ^ 53)%Z ->
  getAverage this = arithmetic_mean (grades this).
Proof.
  intros Hne Hall Hbound. unfold getAverage, arithmetic_mean.
  destruct (grades this) as [|g gs] eqn:E; [done |].
  change 0.0%float with (Binary64.double_of_Z 0).
  now rewrite accumulate_exact by (try exact Hall; lia).
Qed.

(** **** C10 *)

(** C10.  [addGrade(g)] appends [g] to the grades when [0 <= g <= 100]
    and leaves the student unchanged otherwise; so after any sequence of
    [addGrade] calls on a new student the grades are the attempted ones
    that were in range, in order.  [getAverage] returns 0.0 when there
    is no grade.  Otherwise it returns the grades summed in order in
    double arithmetic, divided by their number; for grades that were
    accepted, fewer than 2^53 / 100 of them, no sum is rounded and this
    is the arithmetic mean: the exact sum divided by the number, rounded
    to the nearest double.  In [main], Alice's average over 85, 90, 78
    (150 being rejected) is 253 / 3. *)
Theorem grades_and_average :
  (forall this g,
      (in_range g ->
       addGrade g this = {| name := name this; grades := grades this ++ [g] |}) /\
      (~ in_range g -> addGrade g this = this)) /\
  (forall studentName attempts,
      grades (addGrades attempts (constructor studentName)) = filter in_range attempts) /\
  (forall this, grades this = [] -> getAverage this = 0%float) /\
  (forall this, grades this <> [] -> getAverage this = mean_in_order (grades this)) /\
  (forall studentName attempts,
      (100 * Z.of_nat (length (filter in_range attempts)) < 2 ^ 53)%Z ->
      getAverage (addGrades attempts (constructor studentName))
      = match filter in_range attempts with
        | [] => 0%float
        | accepted => arithmetic_mean accepted
        end) /\
  main_solution2 = (253 / 3)%float.
Proof.
  split; [| split; [| split; [| split; [| split]]]].
  - intros this g. split; [apply addGrade_in_range | apply addGrade_out_of_range].
  - intros studentName attempts. now rewrite addGrades_accepted.
  - intros this Hnil. unfold getAverage. now rewrite Hnil.
  - apply getAverage_in_order.
  - intros studentName attempts Hbound. rewrite addGrades_accepted. simpl.
    destruct (filter in_range attempts) as [|g gs] eqn:E; [reflexivity |].
    apply getAverage_exact; simpl.
    + discriminate.
    + rewrite <- E. apply Forall_forall. intros x Hx.
      now apply list_elem_of_filter in Hx as [Hx _].
    + exact Hbound.
  - reflexivity.
Qed.

Lemma grades_and_average_witness :
  addGrade 85 (constructor "Alice") = {| name := "Alice"; grades := [] ++ [85%Z] |} /\
  addGrade 150 (constructor "Alice") = constructor "Alice" /\
  getAverage (constructor "Alice") = 0%float /\
  getAverage {| name := "Alice"; grades := [85; 90; 78]%Z |}
  = mean_in_order [85; 90; 78]%Z /\
  getAverage (addGrades [85; 90; 78; 150]%Z (constructor "Alice"))
  = arithmetic_mean [85; 90; 78]%Z.
Proof.
  split; [| split; [| split; [| split]]].
  - apply (proj1 (proj1 grades_and_average (constructor "Alice") 85%Z)).
    unfold in_range. lia.
  - apply (proj2 (proj1 grades_and_average (constructor "Alice") 150%Z)).
    unfold in_range. lia.
  - apply (proj1 (proj2 (proj2 grades_and_average)) (constructor "Alice")). reflexivity.
  - apply (proj1 (proj2 (proj2 (proj2 grades_and_average)))
             {| name := "Alice"; grades := [85; 90; 78]%Z |}).
    simpl. discriminate.
  - apply (proj1 (proj2 (proj2 (proj2 (proj2 grades_and_average)))) "Alice"
             [85; 90; 78; 150]%Z).
    vm_compute. reflexivity.
Defined.

(** *** The grades kept and the sign of the average *)

Lemma total_bounds (l : list Z) :
  Forall in_range l -> (0 <= total l <= 100 * Z.of_nat (length l))%Z.
Proof.
  induction 1 as [|g l [Hg0 Hg100] _ IH]; [simpl; lia |].
  unfold total in *. cbn [foldr]. rewrite length_cons, Nat2Z.inj_succ. lia.
Qed.

(** The class keeps its grades within 0..100: if they are before a
    sequence of [addGrade] calls they are after it; the calls leave the
    name alone and raise the count by the number of grades in range. *)
Theorem grades_stay_in_range (this : Student) (gs : list Z) :
  Forall in_range (grades this) ->
  Forall in_range (grades (addGrades gs this)) /\
  getName (addGrades gs this) = getName this /\
  getGradeCount (addGrades gs this)
  = getGradeCount this + length (filter in_range gs) /\
  getGradeCount (addGrades gs this) <= getGradeCount this + length gs.
Proof.
  intros Hinv. rewrite addGrades_accepted. unfold getName, getGradeCount. simpl.
  split; [| split; [reflexivity | split]].
  - apply Forall_app. split; [exact Hinv |].
    apply Forall_forall. intros g Hg. now apply list_elem_of_filter in Hg as [Hg _].
  - apply length_app.
  - rewrite length_app. pose proof (length_filter in_range gs). lia.
Qed.

Lemma grades_stay_in_range_witness :
  Forall in_range (grades (addGrades [85; 90; 78; 150]%Z (constructor "Alice"))) /\
  getName (addGrades [85; 90; 78; 150]%Z (constructor "Alice"))
  = getName (constructor "Alice") /\
  getGradeCount (addGrades [85; 90; 78; 150]%Z (constructor "Alice"))
  = getGradeCount (constructor "Alice") + length (filter in_range [85; 90; 78; 150]%Z) /\
  getGradeCount (addGrades [85; 90; 78; 150]%Z (constructor "Alice"))
  <= getGradeCount (constructor "Alice") + length [85; 90; 78; 150]%Z.
Proof.
  apply (grades_stay_in_range (constructor "Alice") [85; 90; 78; 150]%Z).
  constructor.
Defined.

(** The average of a student whose grades came in through [addGrade]
    (fewer than 2^53 / 100 of them) is at least zero: never negative and
    never a NaN. *)
Theorem average_at_least_zero (studentName : string) (attempts : list Z) :
  (100 * Z.of_nat (length (filter in_range attempts)) < 2 ^ 53)%Z ->
  (0 <=? getAverage (addGrades attempts (constructor studentName)))%float = true.
Proof.
  intros Hbound. rewrite addGrades_accepted. simpl.
  assert (Forall in_range (filter in_range attempts)) as Hall.
  { apply Forall_forall. intros g Hg. now apply list_elem_of_filter in Hg as [Hg _]. }
  destruct (filter in_range attempts) as [|g gs] eqn:E; [reflexivity |].
  rewrite getAverage_exact; simpl; [| discriminate | exact Hall | exact Hbound].
  unfold arithmetic_mean.
  pose proof (total_bounds _ Hall) as Htot.
  assert (0 < Z.of_nat (length (g :: gs)) < 2 ^ 53)%Z as Hlen by (simpl length in *; lia).
  rewrite Binary64Facts.leb_zero_at_least, div_spec.
  rewrite !Binary64Facts.Prim2SF_double_of_Z by lia.
  destruct (Binary64Facts.normalize_integer _ Hlen) as (m & e & -> & _).
  apply Binary64Facts.SF64div_finite_r.
  destruct (Z.eq_dec (total (g :: gs)) 0%Z) as [->|Hne]; [reflexivity |].
  destruct (Binary64Facts.normalize_integer (total (g :: gs))) as (mt & et & -> & _);
    [lia | reflexivity].
Qed.

Lemma average_at_least_zero_witness :
  (0 <=? getAverage (addGrades [85; 90; 78; 150]%Z (constructor "Alice")))%float = true.
Proof.
  apply (average_at_least_zero "Alice" [85; 90; 78; 150]%Z).
  vm_compute. reflexivity.
Defined.

End StudentFacts.

(** ** Circle: the radius is clamped *)
Module CircleFacts.
Import Circle.

Lemma Prim2SF_PI : Prim2SF PI = S754_finite false 7074237752028906 (-51).
Proof. reflexivity. Qed.

Lemma Prim2SF_two_PI : Prim2SF (2 * PI)%float = S754_finite false 7074237752028906 (-50).
Proof. reflexivity. Qed.

(** The radius that [setRadius] stores is at least zero. *)
Lemma clamped_at_least_zero (r : float) :
  Binary64.at_least_zero (Prim2SF (if (0 <? r)%float then r else 0%float)) = true.
Proof.
  destruct (0 <? r)%float eqn:Hpos; [| reflexivity].
  rewrite ltb_spec, Binary64Facts.Prim2SF_zero, Binary64Facts.SFltb_zero_l in Hpos.
  now apply Binary64Facts.is_positive_at_least_zero.
Qed.

(** [setRadius] accepts any double and stores it only when it is
    positive, and zero otherwise (for a negative number, a zero or a NaN):
    afterwards [0 <= getRadius()] holds, so the radius is never negative
    and never a NaN.  Before the first [setRadius] the radius is
    indeterminate and reading it is undefined. *)
Theorem setRadius_clamps (r : float) (this : Circle) :
  (exists r',
      getRadius (setRadius r this) = Ok r' /\
      (0 <=? r')%float = true /\
      ((0 <? r)%float = true -> r' = r) /\
      ((0 <? r)%float = false -> r' = 0%float)) /\
  getRadius default_constructor = Undefined Indeterminate.
Proof.
  split; [| reflexivity].
  exists (if (0 <? r)%float then r else 0%float).
  split; [reflexivity |]. split.
  - rewrite Binary64Facts.leb_zero_at_least. apply clamped_at_least_zero.
  - split; now intros ->.
Qed.

(** Whatever is passed to [setRadius], the area and the circumference
    are computed without a NaN and are at least zero; both are exactly
    zero when the argument was not positive. *)
Theorem area_and_circumference_at_least_zero (r : float) (this : Circle) :
  exists a c,
    area (setRadius r this) = Ok a /\
    circumference (setRadius r this) = Ok c /\
    (0 <=? a)%float = true /\
    (0 <=? c)%float = true /\
    ((0 <? r)%float = false -> a = 0%float /\ c = 0%float).
Proof.
  unfold area, circumference, setRadius. cbn [radius].
  pose proof (clamped_at_least_zero r) as Hr.
  set (r' := if (0 <? r)%float then r else 0%float) in *.
  do 2 eexists. split; [reflexivity |]. split; [reflexivity |].
  split; [| split].
  - rewrite Binary64Facts.leb_zero_at_least, !mul_spec, Prim2SF_PI.
    destruct (Prim2SF r') as [[]|[]| |[] m e] eqn:E; try discriminate; try reflexivity.
    apply Binary64Facts.SF64mul_finite_r, Binary64Facts.SF64mul_finite_l. reflexivity.
  - rewrite Binary64Facts.leb_zero_at_least, (mul_spec (2 * PI) r'), Prim2SF_two_PI.
    now apply Binary64Facts.SF64mul_finite_l.
  - intros Hneg. unfold r'. rewrite Hneg. split; reflexivity.
Qed.

End CircleFacts.

(** ** Point: moves add up *)
Module PointFacts.
Import StaticInt Point.

Lemma move_set this dx dy st x0 y0 :
  st !! this = Some {| x := Some x0; y := Some y0 |} ->
  (INT_MIN <= x0 + dx <= INT_MAX)%Z -> (INT_MIN <= y0 + dy <= INT_MAX)%Z ->
  move this dx dy st
  = Ok (this, <[this := {| x := Some (x0 + dx)%Z; y := Some (y0 + dy)%Z |}]> st).
Proof.
  intros Hp Hx Hy. unfold move. rewrite Hp. simpl.
  now rewrite !decide_True by done.
Qed.

(** Two chained moves are one move by the sums: when neither move
    overflows, [p.move(dx1, dy1).move(dx2, dy2)] leaves [p] where
    [p.move(dx1 + dx2, dy1 + dy2)] leaves it, and changes no other
    point. *)
Theorem move_chain_adds (p : nat) (st : gmap nat Point) (x0 y0 dx1 dy1 dx2 dy2 : Z) :
  st !! p = Some {| x := Some x0; y := Some y0 |} ->
  (INT_MIN <= x0 + dx1 <= INT_MAX)%Z -> (INT_MIN <= y0 + dy1 <= INT_MAX)%Z ->
  (INT_MIN <= x0 + dx1 + dx2 <= INT_MAX)%Z -> (INT_MIN <= y0 + dy1 + dy2 <= INT_MAX)%Z ->
  (INT_MIN <= dx1 + dx2 <= INT_MAX)%Z -> (INT_MIN <= dy1 + dy2 <= INT_MAX)%Z ->
  (r ← move p dx1 dy1; move r dx2 dy2) st = move p (dx1 + dx2) (dy1 + dy2) st /\
  (r ← move p dx1 dy1; move r dx2 dy2) st
  = Ok (p, <[p := {| x := Some (x0 + dx1 + dx2)%Z; y := Some (y0 + dy1 + dy2)%Z |}]> st).
Proof.
  intros Hp Hx1 Hy1 Hx2 Hy2 _ _.
  rewrite (bind_Ok _ _ _ _ _ (move_set p dx1 dy1 st x0 y0 Hp Hx1 Hy1)).
  rewrite (move_set p dx2 dy2 _ (x0 + dx1) (y0 + dy1)) by (try apply lookup_insert_eq; lia).
  rewrite (move_set p (dx1 + dx2) (dy1 + dy2) st x0 y0 Hp) by lia.
  rewrite insert_insert_eq, !Z.add_assoc. split; reflexivity.
Qed.

Lemma move_chain_adds_witness :
  (r ← move 0 3 4; move r 1 1) {[0 := {| x := Some 0%Z; y := Some 0%Z |}]}
  = move 0 (3 + 1) (4 + 1) {[0 := {| x := Some 0%Z; y := Some 0%Z |}]} /\
  (r ← move 0 3 4; move r 1 1) {[0 := {| x := Some 0%Z; y := Some 0%Z |}]}
  = Ok (0, <[0 := {| x := Some (0 + 3 + 1)%Z; y := Some (0 + 4 + 1)%Z |}]>
             {[0 := {| x := Some 0%Z; y := Some 0%Z |}]}).
Proof.
  apply (move_chain_adds 0 {[0 := {| x := Some 0%Z; y := Some 0%Z |}]} 0 0 3 4 1 1);
    [reflexivity | unfold INT_MIN, INT_MAX; lia ..].
Defined.

(** A move that does not overflow is undone by the opposite move: the
    store of points is exactly what it was. *)
Theorem move_and_back (p : nat) (st : gmap nat Point) (x0 y0 dx dy : Z) :
  st !! p = Some {| x := Some x0; y := Some y0 |} ->
  (INT_MIN <= x0 <= INT_MAX)%Z -> (INT_MIN <= y0 <= INT_MAX)%Z ->
  (INT_MIN <= x0 + dx <= INT_MAX)%Z -> (INT_MIN <= y0 + dy <= INT_MAX)%Z ->
  (INT_MIN < dx <= INT_MAX)%Z -> (INT_MIN < dy <= INT_MAX)%Z ->
  (r ← move p dx dy; move r (- dx) (- dy)) st = Ok (p, st).
Proof.
  intros Hp Hx0 Hy0 Hx Hy _ _.
  rewrite (bind_Ok _ _ _ _ _ (move_set p dx dy st x0 y0 Hp Hx Hy)).
  rewrite (move_set p (- dx) (- dy) _ (x0 + dx) (y0 + dy))
    by (try apply lookup_insert_eq; lia).
  rewrite insert_insert_eq.
  replace (x0 + dx + - dx)%Z with x0 by lia.
  replace (y0 + dy + - dy)%Z with y0 by lia.
  now rewrite insert_id.
Qed.

Lemma move_and_back_witness :
  (r ← move 0 3 4; move r (- 3) (- 4)) {[0 := {| x := Some 0%Z; y := Some 0%Z |}]}
  = Ok (0, {[0 := {| x := Some 0%Z; y := Some 0%Z |}]}).
Proof.
  apply (move_and_back 0 {[0 := {| x := Some 0%Z; y := Some 0%Z |}]} 0 0 3 4);
    [reflexivity | unfold INT_MIN, INT_MAX; lia ..].
Defined.

Lemma main_example3_runs :
  exists st, main_example3 0 ∅ = Ok (((0%Z, 0%Z), (4%Z, 5%Z)), st).
Proof. eexists. reflexivity. Qed.

End PointFacts.

(** ** Rectangle: the sides that are safe *)
Module RectangleFacts.
Import StaticInt Rectangle.

(** With both sides between 0 and 46340, [area] and [perimeter] are
    computed without overflow and exchanging the sides changes neither;
    the bound is the largest such: a square of side 46341 has an area
    that overflows [int]. *)
Theorem sides_up_to_46340_are_safe (w h : Z) (this : Rectangle) :
  (0 <= w <= 46340)%Z -> (0 <= h <= 46340)%Z ->
  area (setDimensions w h this) = Ok (w * h)%Z /\
  perimeter (setDimensions w h this) = Ok (2 * (w + h))%Z /\
  area (setDimensions h w this) = area (setDimensions w h this) /\
  perimeter (setDimensions h w this) = perimeter (setDimensions w h this) /\
  area (setDimensions 46341 46341 this) = Undefined SignedOverflow.
Proof.
  intros Hw Hh. unfold area, perimeter, setDimensions, int_result. cbn [width height].
  assert (0 <= w * h <= 46340 * 46340)%Z as Hwh by nia.
  unfold INT_MIN, INT_MAX.
  rewrite (Z.mul_comm h w), (Z.add_comm h w).
  rewrite (decide_True (P := (-2147483648 <= w * h <= 2147483647)%Z)) by lia.
  rewrite (decide_True (P := (-2147483648 <= w + h <= 2147483647)%Z)) by lia.
  rewrite (decide_True (P := (-2147483648 <= 2 * (w + h) <= 2147483647)%Z)) by lia.
  repeat split; reflexivity.
Qed.

Lemma sides_up_to_46340_are_safe_witness :
  area (setDimensions 10 5 default_constructor) = Ok (10 * 5)%Z /\
  perimeter (setDimensions 10 5 default_constructor) = Ok (2 * (10 + 5))%Z /\
  area (setDimensions 5 10 default_constructor)
  = area (setDimensions 10 5 default_constructor) /\
  perimeter (setDimensions 5 10 default_constructor)
  = perimeter (setDimensions 10 5 default_constructor) /\
  area (setDimensions 46341 46341 default_constructor) = Undefined SignedOverflow.
Proof.
  apply (sides_up_to_46340_are_safe 10 5 default_constructor); lia.
Defined.

End RectangleFacts.
